(** * ArbiterID: a shallow embedding of [arbiterid.go]

    The development follows the Go package: the bit layout of an identifier,
    the per-node generator ([Node], [Generate], [GenerateWithTimestamp],
    [generateInternal]) and the five text codecs.  Go's [int64] and [uint64]
    are integers of [Z] with the wrap-around written out; a Go [string] is a
    [string] of bytes; every function that returns [(ID, error)] returns a sum
    here, and the methods on [*Node] pass the node explicitly. *)

From Stdlib Require Import ZArith List String Ascii Bool Lia Sorted.
Import ListNotations.
Local Open Scope Z_scope.

(** ** Machine integers *)

Module Int.

Definition MaxInt64 : Z := 9223372036854775807.
Definition MaxUint64 : Z := 18446744073709551615.

(** Two's complement reading of the low 64 bits: the value an [int64]
    holds after an arithmetic operation whose exact result is [z]. *)
Definition wrap64 (z : Z) : Z := (z + 2 ^ 63) mod 2 ^ 64 - 2 ^ 63.

(** The conversion [uint64(x)], also the result of [uint64] arithmetic. *)
Definition uint64 (z : Z) : Z := z mod 2 ^ 64.

(** [x << n] on [int64]: bits shifted out of the word are dropped. *)
Definition shl64 (x n : Z) : Z := wrap64 (Z.shiftl x n).

Definition add64 (x y : Z) : Z := wrap64 (x + y).
Definition sub64 (x y : Z) : Z := wrap64 (x - y).

End Int.
Import Int.

(** ** Constants for bit allocation in the ID *)

Definition Epoch : Z := 1735718400000.

Definition TypeBits : Z := 10.
Definition TimestampBits : Z := 41.
Definition NodeBits : Z := 2.
Definition SeqBits : Z := 10.

Definition TypeMax : Z := Z.shiftl 1 TypeBits - 1.
Definition TimestampMax : Z := Z.shiftl 1 TimestampBits - 1.
Definition NodeMax : Z := Z.shiftl 1 NodeBits - 1.
Definition SeqMax : Z := Z.shiftl 1 SeqBits - 1.

Definition SeqShift : Z := 0.
Definition NodeShift : Z := SeqBits.
Definition TimeShift : Z := NodeShift + NodeBits.
Definition TypeShift : Z := TimeShift + TimestampBits.

Definition SeqMask : Z := Z.shiftl SeqMax SeqShift.
Definition NodeMask : Z := Z.shiftl NodeMax NodeShift.
Definition TimestampMask : Z := Z.shiftl TimestampMax TimeShift.
Definition TypeMask : Z := Z.shiftl TypeMax TypeShift.

Definition maxRolloverWaitAttempts : nat := 2000.

(** ** Identifiers and their components *)

(** [type ID int64]. *)
Definition ID : Type := Z.

(** The expression that [generateInternal] evaluates to build an ID. *)
Definition packID (idType now node seq : Z) : ID :=
  Z.lor (Z.lor (Z.lor (shl64 idType TypeShift) (shl64 now TimeShift))
               (shl64 node NodeShift))
        seq.

(** [func (id ID) Type() int64] *)
Definition Type_ (id : ID) : Z := Z.shiftr (Z.land id TypeMask) TypeShift.

(** The local [timestampMillisNodeEpoch] of [Components] and [Time]. *)
Definition timestampMillisNodeEpoch (id : ID) : Z :=
  Z.shiftr (Z.land id TimestampMask) TimeShift.

(** [func (id ID) Time() int64] *)
Definition Time (id : ID) : Z := add64 (timestampMillisNodeEpoch id) Epoch.

(** [func (id ID) Node() int64] *)
Definition Node_ (id : ID) : Z := Z.shiftr (Z.land id NodeMask) NodeShift.

(** [func (id ID) Seq() int64] *)
Definition Seq (id : ID) : Z := Z.land id SeqMask.

(** [func (id ID) Components()]; [IDType] is [uint16], hence the [mod]. *)
Definition Components (id : ID) : Z * Z * Z * Z :=
  let timestampMillisUnix := add64 (timestampMillisNodeEpoch id) Epoch in
  let idType := Type_ id mod 2 ^ 16 in
  (idType, timestampMillisUnix, Node_ id, Seq id).

(** ** The generator *)

Module Generator.

(** [type Node struct]; the mutex and the epoch (a constant) are left out. *)
Record Node : Type := mkNode {
  lastID : ID;
  node : Z;
  time : Z;
  seq : Z;
  clockWarningCount : Z;
  strictMonotonicityChecks : bool;
  quietMode : bool
}.

Definition set_lastID (v : ID) (n : Node) : Node :=
  mkNode v (node n) (time n) (seq n) (clockWarningCount n)
         (strictMonotonicityChecks n) (quietMode n).
Definition set_time (v : Z) (n : Node) : Node :=
  mkNode (lastID n) (node n) v (seq n) (clockWarningCount n)
         (strictMonotonicityChecks n) (quietMode n).
Definition set_seq (v : Z) (n : Node) : Node :=
  mkNode (lastID n) (node n) (time n) v (clockWarningCount n)
         (strictMonotonicityChecks n) (quietMode n).
Definition set_clockWarningCount (v : Z) (n : Node) : Node :=
  mkNode (lastID n) (node n) (time n) (seq n) v
         (strictMonotonicityChecks n) (quietMode n).
Definition set_strictMonotonicityChecks (v : bool) (n : Node) : Node :=
  mkNode (lastID n) (node n) (time n) (seq n) (clockWarningCount n)
         v (quietMode n).
Definition set_quietMode (v : bool) (n : Node) : Node :=
  mkNode (lastID n) (node n) (time n) (seq n) (clockWarningCount n)
         (strictMonotonicityChecks n) v.

(** [type NodeOption] is a function on the node *)
Definition NodeOption : Type := Node -> Node.

Definition WithStrictMonotonicityCheck (enable : bool) : NodeOption :=
  set_strictMonotonicityChecks enable.

Definition WithQuietMode (enable : bool) : NodeOption :=
  set_quietMode enable.

(** The errors of the generator.  [ErrClockNotAdvancing] is one sentinel in
    Go, wrapped with two messages: "clock stuck" in [Generate] and
    "sequence exhausted" in [GenerateWithTimestamp]. *)
Inductive ClockReason : Type := ClockStuck | SequenceExhausted.

Inductive GenError : Type :=
| ErrInvalidNodeID
| ErrInvalIDType
| ErrClockNotAdvancing (why : ClockReason)
| ErrTimestampOverflow
| ErrMonotonicityViolation.

Inductive Outcome : Type :=
| Ok (id : ID)
| Fail (e : GenError).

(** [func NewNode(nodeID int, options ...NodeOption)] *)
Definition NewNode (nodeID : Z) (options : list NodeOption)
  : GenError + Node :=
  if (nodeID <? 0) || (nodeID >? NodeMax) then inl ErrInvalidNodeID
  else
    let n := mkNode 0 nodeID 0 0 0 true false in
    inr (fold_left (fun n option => option n) options n).

(** [func (n *Node) generateInternal(idType IDType, now int64)].
    [IDType] is [uint16]: a category is a number from 0 to 65535. *)
Definition generateInternal (idType now : Z) (n : Node) : Node * Outcome :=
  let n := set_time now n in
  if now >? TimestampMax then (n, Fail ErrTimestampOverflow)
  else
    let id := packID idType now (node n) (seq n) in
    if strictMonotonicityChecks n && (id <=? lastID n)
    then (n, Fail ErrMonotonicityViolation)
    else (set_lastID id n, Ok id).

(** The wall clock as [Generate] sees it: [clk k] is the [k]-th reading of
    [time.Now().UTC().Sub(n.epoch).Milliseconds()] during one call. *)
Definition Clock : Type := nat -> Z.

(** The wait loop of [Generate] after the sequence wrapped:
    [for now <= originalTime].  [left] counts the attempts still allowed, so
    [attempts > maxRolloverWaitAttempts] is [left = 0]; [k] is the index of
    the next clock reading.  [None] is the "clock stuck" return. *)
Fixpoint rolloverWait (clk : Clock) (originalTime : Z) (left : nat)
         (k : nat) (now : Z) : option Z :=
  if now <=? originalTime then
    match left with
    | O => None
    | S left' =>
        let freshTime := clk k in
        if freshTime >? originalTime then Some freshTime
        else rolloverWait clk originalTime left' (S k) freshTime
    end
  else Some now.

(** [func (n *Node) Generate(idType IDType) (ID, error)] *)
Definition Generate (clk : Clock) (idType : Z) (n : Node) : Node * Outcome :=
  if idType >? TypeMax then (n, Fail ErrInvalIDType)
  else
    let now := clk 0%nat in
    let '(n, now) :=
      if now <? time n then
        let n := if now <? sub64 (time n) 1
                 then set_clockWarningCount (add64 (clockWarningCount n) 1) n
                 else n in
        (n, time n)
      else (n, now) in
    if now =? time n then
      let n := set_seq (Z.land (add64 (seq n) 1) SeqMax) n in
      if seq n =? 0 then
        let originalTime := time n in
        match rolloverWait clk originalTime maxRolloverWaitAttempts 1 now with
        | None => (n, Fail (ErrClockNotAdvancing ClockStuck))
        | Some now => generateInternal idType now n
        end
      else generateInternal idType now n
    else
      generateInternal idType now (set_seq 0 n).

(** [timestamp.UTC().Sub(n.epoch).Milliseconds()] for a timestamp given in
    Unix milliseconds; the part of a timestamp below the millisecond, which
    the conversion drops, has no image here. *)
Definition sinceEpoch (timestamp : Z) : Z := timestamp - Epoch.

(** [func (n *Node) GenerateWithTimestamp(idType IDType, timestamp time.Time)] *)
Definition GenerateWithTimestamp (idType timestamp : Z) (n : Node)
  : Node * Outcome :=
  if idType >? TypeMax then (n, Fail ErrInvalIDType)
  else
    let now := sinceEpoch timestamp in
    if now =? time n then
      let n := set_seq (Z.land (add64 (seq n) 1) SeqMax) n in
      if seq n =? 0 then (n, Fail (ErrClockNotAdvancing SequenceExhausted))
      else generateInternal idType now n
    else
      generateInternal idType now (set_seq 0 n).

(** The options the package exports; the fields of [Node] are private, so
    a caller has no other way to configure a node. *)
Inductive packageOption : NodeOption -> Prop :=
| option_strict (enable : bool) :
    packageOption (WithStrictMonotonicityCheck enable)
| option_quiet (enable : bool) :
    packageOption (WithQuietMode enable).

(** [func (n *Node) LastID() ID] *)
Definition LastID (n : Node) : ID := lastID n.

(** A call on a shared node, and the run of a list of calls in the order
    in which the mutex admits them. *)
Inductive Call : Type :=
| CallGenerate (clk : Clock) (idType : Z)
| CallGenerateWithTimestamp (idType timestamp : Z).

Definition call (c : Call) (n : Node) : Node * Outcome :=
  match c with
  | CallGenerate clk idType => Generate clk idType n
  | CallGenerateWithTimestamp idType timestamp =>
      GenerateWithTimestamp idType timestamp n
  end.

Fixpoint run (cs : list Call) (n : Node) : Node * list Outcome :=
  match cs with
  | [] => (n, [])
  | c :: cs' =>
      let '(n1, r) := call c n in
      let '(n2, rs) := run cs' n1 in
      (n2, r :: rs)
  end.

(** The identifiers returned by the successful calls, in order. *)
Fixpoint successes (rs : list Outcome) : list ID :=
  match rs with
  | [] => []
  | Ok id :: rs' => id :: successes rs'
  | Fail _ :: rs' => successes rs'
  end.

(** The error of the first failed call, if any call failed. *)
Fixpoint firstError (rs : list Outcome) : option GenError :=
  match rs with
  | [] => None
  | Ok _ :: rs' => firstError rs'
  | Fail e :: _ => Some e
  end.


End Generator.

(** ** Text codecs *)

Module Codec.

(** The errors of the five decoders: the two of [strconv], the two
    sentinels of the package for base 32 and base 58, the
    [CorruptInputError] of [encoding/base64], and the two checks of
    [ParseBase64] and the one of [UnmarshalJSON]. *)
Inductive DecodeError : Type :=
| ErrSyntax
| ErrRange
| ErrInvalidBase32
| ErrInvalidBase58
| CorruptInputError
| ErrBase64InvalidLength
| ErrBase64Overflow
| ErrNegativeJSON.

(** A byte of a string, as a number. *)
Definition byteOf (c : ascii) : Z := Z.of_N (N_of_ascii c).

(** [s[i]]; the index is in range wherever the package indexes. *)
Definition charAt (s : string) (i : Z) : ascii :=
  match String.get (Z.to_nat i) s with
  | Some c => c
  | None => "000"%char
  end.

(** *** [strconv] *)

Definition digits : string :=
  "0123456789abcdefghijklmnopqrstuvwxyz"%string.

(** The loop of [strconv.formatBits]:
    [for u >= b { a[i] = digits[u%b]; u /= b }; a[i] = digits[u]].
    The buffer of the library has 65 bytes, one per bit and the sign. *)
Fixpoint formatBitsLoop (fuel : nat) (b u : Z) (acc : string) : string :=
  match fuel with
  | O => String (charAt digits u) acc
  | S fuel' =>
      if u >=? b
      then formatBitsLoop fuel' b (u / b) (String (charAt digits (u mod b)) acc)
      else String (charAt digits u) acc
  end.

(** [strconv.FormatInt(i, base)] *)
Definition FormatInt (i base : Z) : string :=
  if i <? 0
  then String "-" (formatBitsLoop 64 base (uint64 (- i)) EmptyString)
  else formatBitsLoop 64 base (uint64 i) EmptyString.

(** The zero padding of [fmt]: [for prec > len(buf)-i { buf[i] = '0' }]. *)
Fixpoint padZeros (k : nat) (s : string) : string :=
  match k with
  | O => s
  | S k' => padZeros k' (String "0" s)
  end.

(** [fmt.Sprintf("%0<width>b", i)] for a signed integer: the sign, if any,
    counts in the width. *)
Definition SprintfZeroPaddedBinary (width : nat) (i : Z) : string :=
  let negative := i <? 0 in
  let u := if negative then uint64 (- i) else uint64 i in
  let prec := if negative then (width - 1)%nat else width in
  let ds := formatBitsLoop 64 2 u EmptyString in
  let padded := padZeros (prec - String.length ds) ds in
  if negative then String "-" padded else padded.

(** The digit a byte stands for in [strconv.ParseUint]: ['0'..'9'], or a
    letter in either case, [lower(c) = c | ('x' - 'X')]. *)
Definition digitValue (c : ascii) : option Z :=
  let b := byteOf c in
  if (48 <=? b) && (b <=? 57) then Some (b - 48)
  else
    let l := Z.lor b 32 in
    if (97 <=? l) && (l <=? 122) then Some (l - 97 + 10) else None.

(** The loop of [strconv.ParseUint] for an explicit base (no underscores)
    and bit size 64. *)
Fixpoint parseUintLoop (base cutoff maxVal : Z) (s : string) (n : Z)
  : DecodeError + Z :=
  match s with
  | EmptyString => inr n
  | String c rest =>
      match digitValue c with
      | None => inl ErrSyntax
      | Some d =>
          if d >=? base then inl ErrSyntax
          else if n >=? cutoff then inl ErrRange
          else
            let n := uint64 (n * base) in
            let n1 := uint64 (n + d) in
            if (n1 <? n) || (n1 >? maxVal) then inl ErrRange
            else parseUintLoop base cutoff maxVal rest n1
      end
  end.

(** [strconv.ParseUint(s, base, 64)] with [2 <= base <= 36]. *)
Definition ParseUint (s : string) (base : Z) : DecodeError + Z :=
  match s with
  | EmptyString => inl ErrSyntax
  | _ =>
      let cutoff := MaxUint64 / base + 1 in
      parseUintLoop base cutoff MaxUint64 s 0
  end.

(** [strconv.ParseInt(s, base, 64)] with [2 <= base <= 36]. *)
Definition ParseInt (s : string) (base : Z) : DecodeError + Z :=
  match s with
  | EmptyString => inl ErrSyntax
  | String c0 rest =>
      let neg := Ascii.eqb c0 "-" in
      let body := if Ascii.eqb c0 "+" || neg then rest else s in
      match ParseUint body base with
      | inl e => inl e
      | inr un =>
          let cutoff := 2 ^ 63 in
          if negb neg && (un >=? cutoff) then inl ErrRange
          else if neg && (un >? cutoff) then inl ErrRange
          else
            let n := wrap64 un in
            inr (if neg then wrap64 (- n) else n)
      end
  end.

(** *** Decimal and binary *)

(** [func (id ID) String() string] *)
Definition String_ (id : ID) : string := FormatInt id 10.

(** [func ParseString(s string) (ID, error)] *)
Definition ParseString (s : string) : DecodeError + ID := ParseInt s 10.

(** [func (id ID) Base2() string] *)
Definition Base2 (id : ID) : string := SprintfZeroPaddedBinary 63 id.

(** [func ParseBase2(s string) (ID, error)] *)
Definition ParseBase2 (s : string) : DecodeError + ID := ParseInt s 2.

(** *** Base 32 and base 58 *)

Definition encodeBase32Map : string :=
  "ybndrfg8ejkmcpqxot1uwisza345h769"%string.
Definition encodeBase58Map : string :=
  "123456789abcdefghijkmnopqrstuvwxyzABCDEFGHJKLMNPQRSTUVWXYZ"%string.

(** A [[256]byte] table and the assignment [t[i] = v]. *)
Definition Table : Type := list Z.

Definition tableSet (t : Table) (i : nat) (v : Z) : Table :=
  firstn i t ++ v :: skipn (S i) t.

Definition tableGet (t : Table) (c : ascii) : Z :=
  nth (nat_of_ascii c) t 255.

(** The loops of [init]: every entry is 0xFF, then
    [decodeMap[encodeMap[i]] = byte(i)] for each index of the alphabet. *)
Fixpoint fillDecodeMap (alphabet : string) (i : Z) (t : Table) : Table :=
  match alphabet with
  | EmptyString => t
  | String c rest => fillDecodeMap rest (i + 1) (tableSet t (nat_of_ascii c) i)
  end.

Definition initDecodeMap (alphabet : string) : Table :=
  fillDecodeMap alphabet 0 (repeat 255 256).

Definition decodeBase32Map : Table :=
  Eval vm_compute in initDecodeMap encodeBase32Map.
Definition decodeBase58Map : Table :=
  Eval vm_compute in initDecodeMap encodeBase58Map.

(** The loop of [Base32] and [Base58]:
    [for n > 0 { buf[i] = encodeMap[n%base]; n /= base; i-- }].
    [slots] is the number of bytes of [buf] still free; writing past the
    buffer is the run-time panic, [None]. *)
Fixpoint encodeLoop (alphabet : string) (base : Z) (slots : nat) (n : Z)
         (acc : string) : option string :=
  if n >? 0 then
    match slots with
    | O => None
    | S slots' =>
        encodeLoop alphabet base slots' (n / base)
                   (String (charAt alphabet (n mod base)) acc)
    end
  else Some acc.

(** [func (id ID) Base32() string] *)
Definition Base32 (id : ID) : option string :=
  if id =? 0 then Some (String (charAt encodeBase32Map 0) EmptyString)
  else encodeLoop encodeBase32Map 32 13 (uint64 id) EmptyString.

(** [func (id ID) Base58() string] *)
Definition Base58 (id : ID) : option string :=
  if id =? 0 then Some (String (charAt encodeBase58Map 0) EmptyString)
  else encodeLoop encodeBase58Map 58 11 (uint64 id) EmptyString.

(** The loop of [ParseBase32] and [ParseBase58]. *)
Fixpoint decodeLoop (t : Table) (base : Z) (err : DecodeError) (s : string)
         (val : Z) : DecodeError + Z :=
  match s with
  | EmptyString => inr val
  | String char rest =>
      let decodedByte := tableGet t char in
      if decodedByte =? 255 then inl err
      else if val >? (MaxUint64 - decodedByte) / base then inl err
      else decodeLoop t base err rest (uint64 (val * base + decodedByte))
  end.

(** [func ParseBase32(s string) (ID, error)] *)
Definition ParseBase32 (s : string) : DecodeError + ID :=
  if (String.length s =? 0)%nat then inl ErrInvalidBase32
  else if (13 <? String.length s)%nat then inl ErrInvalidBase32
  else
    match decodeLoop decodeBase32Map 32 ErrInvalidBase32 s 0 with
    | inl e => inl e
    | inr val =>
        if val >? MaxInt64 then inl ErrInvalidBase32 else inr (wrap64 val)
    end.

(** [func ParseBase58(s string) (ID, error)] *)
Definition ParseBase58 (s : string) : DecodeError + ID :=
  if (String.length s =? 0)%nat then inl ErrInvalidBase58
  else if (11 <? String.length s)%nat then inl ErrInvalidBase58
  else
    match decodeLoop decodeBase58Map 58 ErrInvalidBase58 s 0 with
    | inl e => inl e
    | inr val =>
        if val >? MaxInt64 then inl ErrInvalidBase58 else inr (wrap64 val)
    end.

(** *** Base 64 *)

(** The alphabet of [base64.RawURLEncoding]. *)
Definition encodeURL : string :=
  "ABCDEFGHIJKLMNOPQRSTUVWXYZabcdefghijklmnopqrstuvwxyz0123456789-_"%string.

Definition decodeURLMap : Table :=
  Eval vm_compute in initDecodeMap encodeURL.

(** [binary.BigEndian.PutUint64] *)
Definition PutUint64 (v : Z) : list Z :=
  [Z.shiftr v 56 mod 256; Z.shiftr v 48 mod 256; Z.shiftr v 40 mod 256;
   Z.shiftr v 32 mod 256; Z.shiftr v 24 mod 256; Z.shiftr v 16 mod 256;
   Z.shiftr v 8 mod 256; v mod 256].

(** [binary.BigEndian.Uint64]; the caller has checked the length. *)
Definition Uint64 (b : list Z) : Z :=
  match b with
  | [b0; b1; b2; b3; b4; b5; b6; b7] =>
      Z.lor b7 (Z.lor (Z.shiftl b6 8) (Z.lor (Z.shiftl b5 16)
        (Z.lor (Z.shiftl b4 24) (Z.lor (Z.shiftl b3 32)
          (Z.lor (Z.shiftl b2 40) (Z.lor (Z.shiftl b1 48)
            (Z.shiftl b0 56)))))))
  | _ => 0
  end.

Definition sextet (val shift : Z) : ascii :=
  charAt encodeURL (Z.land (Z.shiftr val shift) 63).

(** [RawURLEncoding.EncodeToString]: three bytes give four characters; a
    remainder of one or two bytes gives two or three, without padding. *)
Fixpoint EncodeToString (src : list Z) : string :=
  match src with
  | b0 :: b1 :: b2 :: rest =>
      let val := Z.lor (Z.lor (Z.shiftl b0 16) (Z.shiftl b1 8)) b2 in
      String (sextet val 18) (String (sextet val 12)
        (String (sextet val 6) (String (sextet val 0)
          (EncodeToString rest))))
  | [b0; b1] =>
      let val := Z.lor (Z.shiftl b0 16) (Z.shiftl b1 8) in
      String (sextet val 18) (String (sextet val 12)
        (String (sextet val 6) EmptyString))
  | [b0] =>
      let val := Z.shiftl b0 16 in
      String (sextet val 18) (String (sextet val 12) EmptyString)
  | [] => EmptyString
  end.

(** The bytes of one quantum of [dlen] characters, [dbuf] holding their
    six-bit values. *)
Definition quantumBytes (dbuf : list Z) : list Z :=
  match dbuf with
  | [d0; d1; d2; d3] =>
      let val := Z.lor (Z.lor (Z.lor (Z.shiftl d0 18) (Z.shiftl d1 12))
                              (Z.shiftl d2 6)) d3 in
      [Z.shiftr val 16 mod 256; Z.shiftr val 8 mod 256; val mod 256]
  | [d0; d1; d2] =>
      let val := Z.lor (Z.lor (Z.shiftl d0 18) (Z.shiftl d1 12))
                       (Z.shiftl d2 6) in
      [Z.shiftr val 16 mod 256; Z.shiftr val 8 mod 256]
  | [d0; d1] =>
      let val := Z.lor (Z.shiftl d0 18) (Z.shiftl d1 12) in
      [Z.shiftr val 16 mod 256]
  | _ => []
  end.

(** [RawURLEncoding.DecodeString]: characters of the alphabet fill a
    quantum of four; carriage returns and line feeds are skipped; any
    other byte is corrupt input; at the end one character left over is
    corrupt input, two or three give one or two bytes (no padding, and the
    encoding is not strict about the unused bits). *)
Fixpoint decodeQuanta (s : string) (dbuf : list Z) (dst : list Z)
  : DecodeError + list Z :=
  match s with
  | EmptyString =>
      match dbuf with
      | [] => inr dst
      | [_] => inl CorruptInputError
      | _ => inr (dst ++ quantumBytes dbuf)
      end
  | String c rest =>
      let out := tableGet decodeURLMap c in
      if out =? 255 then
        if Ascii.eqb c "010" || Ascii.eqb c "013"
        then decodeQuanta rest dbuf dst
        else inl CorruptInputError
      else
        match dbuf with
        | [d0; d1; d2] =>
            decodeQuanta rest [] (dst ++ quantumBytes [d0; d1; d2; out])
        | _ => decodeQuanta rest (dbuf ++ [out]) dst
        end
  end.

Definition DecodeString (s : string) : DecodeError + list Z :=
  decodeQuanta s [] [].

(** [func (id ID) Base64() string] *)
Definition Base64 (id : ID) : string :=
  EncodeToString (PutUint64 (uint64 id)).

(** [func ParseBase64(s string) (ID, error)] *)
Definition ParseBase64 (s : string) : DecodeError + ID :=
  match DecodeString s with
  | inl e => inl e
  | inr b =>
      if negb (List.length b =? 8)%nat then inl ErrBase64InvalidLength
      else
        let val := Uint64 b in
        if val >? MaxInt64 then inl ErrBase64Overflow
        else inr (wrap64 val)
  end.

(** *** JSON *)

(** [s[1 : len(s)-1]] *)
Definition unquote (s : string) : string :=
  String.substring 1 (String.length s - 2) s.

(** [func (id *ID) UnmarshalJSON(b []byte) error], returning the ID it
    stores. *)
Definition UnmarshalJSON (s : string) : DecodeError + ID :=
  let quoted :=
    (2 <=? String.length s)%nat
    && Ascii.eqb (charAt s 0) "034"
    && Ascii.eqb (charAt s (Z.of_nat (String.length s) - 1)) "034" in
  match ParseInt (if quoted then unquote s else s) 10 with
  | inl e => inl e
  | inr val => if val <? 0 then inl ErrNegativeJSON else inr val
  end.

(** [func (id ID) MarshalJSON() ([]byte, error)]; the error is always
    nil. *)
Definition MarshalJSON (id : ID) : string :=
  String "034" (FormatInt id 10 ++ String "034" EmptyString).

End Codec.

(** ** Vocabulary of the properties *)

(** The fields of the layout, as the declared widths bound them. *)
Definition validFields (idType now node seq : Z) : Prop :=
  0 <= idType <= TypeMax /\ 0 <= now <= TimestampMax /\
  0 <= node <= NodeMax /\ 0 <= seq <= SeqMax.

Module GeneratorSpec.
Import Generator.

(** The part of the state that every call leaves alone, and what it does
    to [lastID]. *)
Definition framed (n n' : Node) (r : Outcome) : Prop :=
  node n' = node n /\
  strictMonotonicityChecks n' = strictMonotonicityChecks n /\
  quietMode n' = quietMode n /\
  match r with
  | Ok id => lastID n' = id /\
             (strictMonotonicityChecks n = true -> lastID n < id)
  | Fail _ => lastID n' = lastID n
  end.

(** The state between calls that all succeeded: nothing generated yet, or
    [lastID] packs the recorded time and sequence under a category that is
    at most [c]. *)
Definition synced (c : Z) (n : Node) : Prop :=
  0 <= node n <= NodeMax /\
  ((lastID n = 0 /\ time n = 0 /\ seq n = 0) \/
   (exists c', c' <= c /\
               validFields c' (time n) (node n) (seq n) /\
               lastID n = packID c' (time n) (node n) (seq n))).

(** What a call that failed with [e] has done to the time and the
    sequence. *)
Definition failedPost (n n' : Node) (e : GenError) : Prop :=
  (e = ErrInvalIDType -> n' = n) /\
  (forall why, e = ErrClockNotAdvancing why ->
               seq n' = 0 /\ time n' = time n) /\
  (e = ErrTimestampOverflow -> TimestampMax < time n').


End GeneratorSpec.

Module CodecSpec.
Import Codec.

(** The string that spells the digits [ds] with the characters [enc]. *)
Definition chars (enc : Z -> ascii) (ds : list Z) : string :=
  fold_right (fun d s => String (enc d) s) EmptyString ds.

(** The number that the digits [ds] continue from the value [a], most
    significant digit first. *)
Definition digitsValue (b : Z) (ds : list Z) (a : Z) : Z :=
  fold_left (fun a d => a * b + d) ds a.

(** What an encoding loop has written for [u]: digits in range that
    spell [u], most significant first. *)
Definition spells (b : Z) (ds : list Z) (u : Z) : Prop :=
  Forall (fun d => 0 <= d < b) ds /\
  forall a, digitsValue b ds a = a * b ^ Z.of_nat (List.length ds) + u.

(** A byte. *)
Definition isByte (x : Z) : Prop := 0 <= x < 256.

(** The six-bit value of the character written for [val] at [shift]. *)
Definition sextetValue (val shift : Z) : Z := (val / 2 ^ shift) mod 64.

(** [k] copies of the character [c] in front of [s]. *)
Fixpoint prepend (c : ascii) (k : nat) (s : string) : string :=
  match k with
  | O => s
  | S k' => String c (prepend c k' s)
  end.

(** Every character of [s] passes the test [p]. *)
Fixpoint allChars (p : ascii -> bool) (s : string) : bool :=
  match s with
  | EmptyString => true
  | String c rest => p c && allChars p rest
  end.

(** The character [c] occurs in [alphabet]. *)
Fixpoint occurs (c : ascii) (alphabet : string) : bool :=
  match alphabet with
  | EmptyString => false
  | String a rest => Ascii.eqb c a || occurs c rest
  end.

(** The number a string spells through a decoding table, continuing from
    [a], most significant character first. *)
Fixpoint valueOf (t : Table) (b : Z) (s : string) (a : Z) : Z :=
  match s with
  | EmptyString => a
  | String c rest => valueOf t b rest (a * b + tableGet t c)
  end.

(** A digit of [strconv] below the base, and the number a string of them
    spells. *)
Definition isDigitOf (b : Z) (c : ascii) : bool :=
  match digitValue c with
  | Some d => d <? b
  | None => false
  end.

Fixpoint digitsVal (b : Z) (s : string) (a : Z) : Z :=
  match s with
  | EmptyString => a
  | String c rest =>
      digitsVal b rest (a * b + match digitValue c with
                                 | Some d => d
                                 | None => 0
                                 end)
  end.

(** A string without its sign, and whether the sign is a minus. *)
Definition unsignedBody (s : string) : string :=
  match s with
  | EmptyString => EmptyString
  | String c rest => if Ascii.eqb c "+" || Ascii.eqb c "-" then rest else s
  end.

Definition hasMinus (s : string) : bool :=
  match s with
  | EmptyString => false
  | String c _ => Ascii.eqb c "-"
  end.

(** The two characters that [DecodeString] skips. *)
Definition isNewline (c : ascii) : bool :=
  Ascii.eqb c "010" || Ascii.eqb c "013".

(** The five formats and their decoders. *)
Inductive Format : Type :=
  | Decimal
  | Binary
  | Base32Format
  | Base58Format
  | Base64Format.

Definition Decode (f : Format) (s : string) : DecodeError + ID :=
  match f with
  | Decimal => ParseString s
  | Binary => ParseBase2 s
  | Base32Format => ParseBase32 s
  | Base58Format => ParseBase58 s
  | Base64Format => ParseBase64 s
  end.

(** What a string must be for a decoder to return [v]. *)
Definition accepted (f : Format) (s : string) (v : ID) : Prop :=
  match f with
  | Decimal =>
      unsignedBody s <> EmptyString /\
      allChars (isDigitOf 10) (unsignedBody s) = true /\
      (hasMinus s = false ->
       v = digitsVal 10 (unsignedBody s) 0 /\ 0 <= v < 2 ^ 63)
  | Binary =>
      unsignedBody s <> EmptyString /\
      allChars (isDigitOf 2) (unsignedBody s) = true /\
      (hasMinus s = false ->
       v = digitsVal 2 (unsignedBody s) 0 /\ 0 <= v < 2 ^ 63)
  | Base32Format =>
      (1 <= String.length s <= 13)%nat /\
      allChars (fun c => occurs c encodeBase32Map) s = true /\
      v = valueOf decodeBase32Map 32 s 0 /\ 0 <= v < 2 ^ 63
  | Base58Format =>
      (1 <= String.length s <= 11)%nat /\
      allChars (fun c => occurs c encodeBase58Map) s = true /\
      v = valueOf decodeBase58Map 58 s 0 /\ 0 <= v < 2 ^ 63
  | Base64Format =>
      allChars (fun c => occurs c encodeURL || isNewline c) s = true /\
      (exists b, DecodeString s = inr b /\ List.length b = 8%nat /\
                 v = Uint64 b) /\
      0 <= v < 2 ^ 63
  end.

End CodecSpec.

(** ** The service's use of the node *)

Module Service.
Import Generator.

(** [s.node.LastID().Node()], the node id that [infoHandler] and [Start]
    of the example service report. *)
Definition reportedNodeID (n : Node) : Z := Node_ (LastID n).

End Service.

Module GeneratorSpecMore.
Import Generator.


(** The category a call passes. *)
Definition categoryOf (c : Call) : Z :=
  match c with
  | CallGenerate _ idType => idType
  | CallGenerateWithTimestamp idType _ => idType
  end.

(** The node that a call hands to [generateInternal]: the caller's node
    with the sequence stepped, and possibly the warning count. *)
Definition stepped (n m : Node) : Prop :=
  node m = node n /\ lastID m = lastID n /\
  strictMonotonicityChecks m = strictMonotonicityChecks n /\
  quietMode m = quietMode n /\ 0 <= seq m <= SeqMax.

End GeneratorSpecMore.

Module CodecSpecMore.
Import Codec CodecSpec.

(** The number of characters of [s] that [DecodeString] does not skip. *)
Fixpoint significant (s : string) : nat :=
  match s with
  | EmptyString => O
  | String c rest =>
      if isNewline c then significant rest else S (significant rest)
  end.

(** The number of bytes that [n] characters of unpadded base 64 hold. *)
Definition decodedLen (n : Z) : Z := 3 * (n / 4) + Z.max 0 (n mod 4 - 1).

(** [Base64 id] with its last character replaced by the one that stands
    for [k] more. *)
Definition looseBase64 (id : ID) (k : Z) : string :=
  (String.substring 0 10 (Base64 id)
   ++ String (charAt encodeURL (4 * (id mod 16) + k)) EmptyString)%string.

End CodecSpecMore.

(** * Properties *)

(** ** Machine integers and bit fields *)

Lemma wrap64_small (z : Z) :
  - 2 ^ 63 <= z < 2 ^ 63 -> wrap64 z = z.
Proof.
  intros H. unfold wrap64. rewrite Z.mod_small; lia.
Qed.

Lemma wrap64_range (z : Z) : - 2 ^ 63 <= wrap64 z < 2 ^ 63.
Proof.
  unfold wrap64.
  pose proof (Z.mod_pos_bound (z + 2 ^ 63) (2 ^ 64) ltac:(lia)). lia.
Qed.

(** A field that fits below bit [k] does not overlap a multiple of [2^k]:
    the bitwise or is a sum. *)
Lemma land_mul_pow2_small (hi lo k : Z) :
  0 <= k -> 0 <= lo < 2 ^ k -> Z.land (hi * 2 ^ k) lo = 0.
Proof.
  intros Hk Hlo. apply Z.bits_inj'; intros i Hi.
  rewrite Z.land_spec, Z.bits_0, <- Z.shiftl_mul_pow2 by lia.
  destruct (Z.ltb_spec i k) as [Hlt | Hge].
  - rewrite Z.shiftl_spec_low by lia. reflexivity.
  - replace (Z.testbit lo i) with false; [apply andb_false_r |].
    symmetry. rewrite <- (Z.mod_small lo (2 ^ k)) by lia.
    apply Z.mod_pow2_bits_high. lia.
Qed.

Lemma lor_mul_add (hi lo k : Z) :
  0 <= k -> 0 <= lo < 2 ^ k ->
  Z.lor (hi * 2 ^ k) lo = hi * 2 ^ k + lo.
Proof.
  intros Hk Hlo.
  pose proof (land_mul_pow2_small hi lo k Hk Hlo) as H0.
  rewrite <- Z.lxor_lor, <- Z.add_nocarry_lxor by exact H0. reflexivity.
Qed.

(** Masking with [w] ones at offset [sh] and shifting down reads the [w]-bit
    field at [sh]. *)
Lemma field_extract (x w sh : Z) :
  0 <= w -> 0 <= sh ->
  Z.shiftr (Z.land x (Z.shiftl (Z.ones w) sh)) sh = (x / 2 ^ sh) mod 2 ^ w.
Proof.
  intros Hw Hsh.
  rewrite Z.shiftr_land, Z.shiftr_shiftl_l, Z.sub_diag, Z.shiftl_0_r by lia.
  rewrite Z.land_ones, Z.shiftr_div_pow2 by lia. reflexivity.
Qed.

Lemma validFields_bounds (idType now node seq : Z) :
  validFields idType now node seq <->
  0 <= idType <= 1023 /\ 0 <= now <= 2 ^ 41 - 1 /\
  0 <= node <= 3 /\ 0 <= seq <= 1023.
Proof. reflexivity. Qed.

Lemma packID_sum (idType now node seq : Z) :
  validFields idType now node seq ->
  packID idType now node seq
  = idType * 2 ^ 53 + now * 2 ^ 12 + node * 2 ^ 10 + seq.
Proof.
  unfold validFields.
  change TypeMax with 1023. change TimestampMax with (2 ^ 41 - 1).
  change NodeMax with 3. change SeqMax with 1023.
  intros (Hc & Ht & Hn & Hs).
  unfold packID, shl64.
  change TypeShift with 53. change TimeShift with 12. change NodeShift with 10.
  rewrite !Z.shiftl_mul_pow2 by lia.
  rewrite !wrap64_small by lia.
  rewrite (lor_mul_add idType (now * 2 ^ 12) 53) by lia.
  replace (idType * 2 ^ 53 + now * 2 ^ 12)
    with ((idType * 2 ^ 41 + now) * 2 ^ 12) by lia.
  rewrite (lor_mul_add _ (node * 2 ^ 10) 12) by lia.
  replace ((idType * 2 ^ 41 + now) * 2 ^ 12 + node * 2 ^ 10)
    with ((idType * 2 ^ 43 + now * 4 + node) * 2 ^ 10) by lia.
  rewrite (lor_mul_add _ seq 10) by lia.
  lia.
Qed.

(** The accessors read the fields by division. *)
Lemma Type_spec (id : ID) : Type_ id = (id / 2 ^ 53) mod 2 ^ 10.
Proof. exact (field_extract id 10 53 ltac:(lia) ltac:(lia)). Qed.

Lemma timestampMillisNodeEpoch_spec (id : ID) :
  timestampMillisNodeEpoch id = (id / 2 ^ 12) mod 2 ^ 41.
Proof. exact (field_extract id 41 12 ltac:(lia) ltac:(lia)). Qed.

Lemma Node_spec (id : ID) : Node_ id = (id / 2 ^ 10) mod 2 ^ 2.
Proof. exact (field_extract id 2 10 ltac:(lia) ltac:(lia)). Qed.

Lemma Seq_spec (id : ID) : Seq id = id mod 2 ^ 10.
Proof. exact (Z.land_ones id 10 ltac:(lia)). Qed.

Lemma Seq_packID (idType now node seq : Z) :
  validFields idType now node seq -> Seq (packID idType now node seq) = seq.
Proof.
  intros H. rewrite Seq_spec, packID_sum by exact H.
  unfold validFields in H. revert H.
  change TypeMax with 1023. change TimestampMax with (2 ^ 41 - 1).
  change NodeMax with 3. change SeqMax with 1023.
  intros (Hc & Ht & Hn & Hs).
  replace (idType * 2 ^ 53 + now * 2 ^ 12 + node * 2 ^ 10 + seq)
    with (seq + (idType * 2 ^ 43 + now * 4 + node) * 2 ^ 10) by lia.
  rewrite Z.mod_add by lia. apply Z.mod_small. lia.
Qed.

Lemma div_mod_field (hi lo k w : Z) :
  0 <= k -> 0 <= w -> 0 <= lo < 2 ^ k ->
  ((hi * 2 ^ k + lo) / 2 ^ k) mod 2 ^ w = hi mod 2 ^ w.
Proof.
  intros Hk Hw Hlo.
  rewrite Z.add_comm, Z.div_add by lia.
  rewrite Z.div_small by lia. reflexivity.
Qed.

Lemma unpack_sum (idType now node seq : Z) :
  validFields idType now node seq ->
  let id := idType * 2 ^ 53 + now * 2 ^ 12 + node * 2 ^ 10 + seq in
  (id / 2 ^ 53) mod 2 ^ 10 = idType /\
  (id / 2 ^ 12) mod 2 ^ 41 = now /\
  (id / 2 ^ 10) mod 2 ^ 2 = node.
Proof.
  intros H. cbv zeta. unfold validFields in H. revert H.
  change TypeMax with 1023. change TimestampMax with (2 ^ 41 - 1).
  change NodeMax with 3. change SeqMax with 1023.
  intros (Hc & Ht & Hn & Hs). repeat split.
  - replace (idType * 2 ^ 53 + now * 2 ^ 12 + node * 2 ^ 10 + seq)
      with (idType * 2 ^ 53 + (now * 2 ^ 12 + node * 2 ^ 10 + seq)) by lia.
    rewrite div_mod_field by lia. apply Z.mod_small; lia.
  - replace (idType * 2 ^ 53 + now * 2 ^ 12 + node * 2 ^ 10 + seq)
      with ((idType * 2 ^ 41 + now) * 2 ^ 12 + (node * 2 ^ 10 + seq)) by lia.
    rewrite div_mod_field by lia.
    rewrite Z.add_comm, Z.mod_add by lia. apply Z.mod_small; lia.
  - replace (idType * 2 ^ 53 + now * 2 ^ 12 + node * 2 ^ 10 + seq)
      with ((idType * 2 ^ 43 + now * 2 ^ 2 + node) * 2 ^ 10 + seq) by lia.
    rewrite div_mod_field by lia.
    replace (idType * 2 ^ 43 + now * 2 ^ 2 + node)
      with (node + (idType * 2 ^ 41 + now) * 2 ^ 2) by lia.
    rewrite Z.mod_add by lia. apply Z.mod_small; lia.
Qed.

(** Identifiers compare like their fields, category first. *)
Lemma packID_lt (c1 t1 s1 c2 t2 s2 node : Z) :
  validFields c1 t1 node s1 -> validFields c2 t2 node s2 ->
  c1 < c2 \/ (c1 = c2 /\ (t1 < t2 \/ (t1 = t2 /\ s1 < s2))) ->
  packID c1 t1 node s1 < packID c2 t2 node s2.
Proof.
  intros H1 H2 Hlt. rewrite !packID_sum by assumption.
  unfold validFields in H1, H2. revert H1 H2.
  change TypeMax with 1023. change TimestampMax with (2 ^ 41 - 1).
  change NodeMax with 3. change SeqMax with 1023.
  intros (Hc1 & Ht1 & Hn1 & Hs1) (Hc2 & Ht2 & _ & Hs2). lia.
Qed.

Lemma packID_range (c t node s : Z) :
  validFields c t node s -> 0 <= packID c t node s <= MaxInt64.
Proof.
  intros H. rewrite packID_sum by assumption.
  unfold validFields in H. revert H. unfold MaxInt64.
  change TypeMax with 1023. change TimestampMax with (2 ^ 41 - 1).
  change NodeMax with 3. change SeqMax with 1023.
  intros (Hc1 & Ht1 & Hn1 & Hs1). lia.
Qed.

(** ** Field round trip *)

(** C3: packing four fields that fit their widths and reading the identifier
    back with [Type_], [timestampMillisNodeEpoch], [Node_] and [Seq] returns
    the same four values; [Components] returns them with the timestamp made
    absolute by [Epoch]. *)
Theorem unpack_packID (idType now node seq : Z) :
  0 <= idType <= 1023 -> 0 <= now <= 2 ^ 41 - 1 ->
  0 <= node <= 3 -> 0 <= seq <= 1023 ->
  let id := packID idType now node seq in
  id = Z.lor (Z.lor (Z.lor (Z.shiftl idType 53) (Z.shiftl now 12))
                    (Z.shiftl node 10)) seq /\
  Type_ id = idType /\ timestampMillisNodeEpoch id = now /\
  Node_ id = node /\ Seq id = seq /\
  Components id = (idType, now + Epoch, node, seq).
Proof.
  intros Hc Ht Hn Hs id. subst id.
  assert (Hv : validFields idType now node seq)
    by (apply validFields_bounds; lia).
  pose proof (unpack_sum _ _ _ _ Hv) as (Hty & Hts & Hnd).
  pose proof (Seq_packID _ _ _ _ Hv) as Hsq.
  rewrite <- (packID_sum _ _ _ _ Hv) in Hty, Hts, Hnd.
  rewrite <- Type_spec in Hty.
  rewrite <- timestampMillisNodeEpoch_spec in Hts.
  rewrite <- Node_spec in Hnd.
  split; [| repeat split; auto].
  - unfold packID, shl64.
    change TypeShift with 53. change TimeShift with 12.
    change NodeShift with 10.
    rewrite !Z.shiftl_mul_pow2 by lia.
    rewrite !wrap64_small by lia. reflexivity.
  - unfold Components. rewrite Hty, Hts, Hnd, Hsq.
    unfold add64, Epoch. rewrite wrap64_small by lia.
    rewrite Z.mod_small by lia. reflexivity.
Qed.

Lemma unpack_packID_witness :
  let id := packID 5 123456 2 17 in
  id = Z.lor (Z.lor (Z.lor (Z.shiftl 5 53) (Z.shiftl 123456 12))
                    (Z.shiftl 2 10)) 17 /\
  Type_ id = 5 /\ timestampMillisNodeEpoch id = 123456 /\
  Node_ id = 2 /\ Seq id = 17 /\
  Components id = (5, 123456 + Epoch, 2, 17).
Proof. apply (unpack_packID 5 123456 2 17); lia. Defined.

(** C4: with the epoch constant 1735718400000, the fields (1, 0, 0, 0) pack
    to 9007199254740992, which is 1 shifted left by 53, and that identifier
    unpacks to (1, 0, 0, 0); [generateInternal] produces it for category 1 at
    offset 0 on node 0 with sequence 0. *)
Theorem packID_concrete :
  Epoch = 1735718400000 /\
  packID 1 0 0 0 = 9007199254740992 /\
  Z.shiftl 1 53 = 9007199254740992 /\
  (Type_ 9007199254740992, timestampMillisNodeEpoch 9007199254740992,
   Node_ 9007199254740992, Seq 9007199254740992) = (1, 0, 0, 0) /\
  Components 9007199254740992 = (1, Epoch, 0, 0) /\
  snd (Generator.generateInternal 1 0
         (Generator.mkNode 0 0 0 0 0 true false))
  = Generator.Ok 9007199254740992.
Proof. repeat split; vm_compute; reflexivity. Qed.

(** ** The generator *)

Module GeneratorFacts.
Import Generator GeneratorSpec.

(** Case analysis on the conditional at the head of a hypothesis. *)
Ltac split_if H :=
  match type of H with
  | context [if ?b then _ else _] =>
      let E := fresh "E" in destruct b eqn:E
  | context [match ?o with Some _ => _ | None => _ end] =>
      let E := fresh "E" in destruct o eqn:E
  end.

Ltac inv_pair H := injection H as <- <-.

(** What [generateInternal] leaves behind, whatever it returns. *)
Lemma generateInternal_frame (idType now : Z) (n n' : Node) (r : Outcome) :
  generateInternal idType now n = (n', r) ->
  node n' = node n /\ seq n' = seq n /\ time n' = now /\
  strictMonotonicityChecks n' = strictMonotonicityChecks n /\
  quietMode n' = quietMode n /\
  match r with
  | Ok id =>
      id = packID idType now (node n) (seq n) /\ now <= TimestampMax /\
      lastID n' = id /\
      (strictMonotonicityChecks n = true -> lastID n < id)
  | Fail e =>
      lastID n' = lastID n /\
      ((e = ErrTimestampOverflow /\ TimestampMax < now) \/
       (e = ErrMonotonicityViolation /\ now <= TimestampMax /\
        strictMonotonicityChecks n = true /\
        packID idType now (node n) (seq n) <= lastID n))
  end.
Proof.
  unfold generateInternal. intros H.
  destruct (now >? TimestampMax) eqn:Eov.
  - inv_pair H. simpl. repeat split; auto. left. split; auto. lia.
  - simpl in H.
    destruct (strictMonotonicityChecks n) eqn:Es; simpl in H.
    + destruct (packID idType now (node n) (seq n) <=? lastID n) eqn:El;
        inv_pair H; simpl; repeat split; auto; try lia.
      right. repeat split; auto; lia.
    + inv_pair H; simpl; repeat split; auto; try lia; try discriminate.
Qed.

(** The wait loop only ends with a reading after [originalTime]. *)
Lemma rolloverWait_later (clk : Clock) (originalTime : Z) (left k : nat)
      (now now' : Z) :
  rolloverWait clk originalTime left k now = Some now' ->
  originalTime < now'.
Proof.
  revert k now. induction left as [| left IH]; intros k now; simpl.
  - destruct (now <=? originalTime) eqn:E; [discriminate |].
    intros [= <-]. lia.
  - destruct (now <=? originalTime) eqn:E.
    + destruct (clk k >? originalTime) eqn:E'.
      * intros [= <-]. lia.
      * apply IH.
    + intros [= <-]. lia.
Qed.

Lemma generateInternal_framed (idType now : Z) (n n' : Node) (r : Outcome) :
  generateInternal idType now n = (n', r) -> framed n n' r.
Proof.
  intros H. apply generateInternal_frame in H.
  destruct H as (Hn & _ & _ & Hs & Hq & Hr).
  unfold framed. repeat split; auto.
  destruct r; intuition.
Qed.

Lemma framed_pre (n0 n n' : Node) (r : Outcome) :
  node n = node n0 -> lastID n = lastID n0 ->
  strictMonotonicityChecks n = strictMonotonicityChecks n0 ->
  quietMode n = quietMode n0 ->
  framed n n' r -> framed n0 n' r.
Proof.
  unfold framed. intros Hn Hl Hs Hq (H1 & H2 & H3 & H4).
  rewrite <- Hn, <- Hl, <- Hs, <- Hq. auto.
Qed.

Lemma framed_refl_fail (n : Node) (e : GenError) : framed n n (Fail e).
Proof. unfold framed. auto. Qed.

Lemma Generate_framed (clk : Clock) (idType : Z) (n n' : Node)
      (r : Outcome) :
  Generate clk idType n = (n', r) -> framed n n' r.
Proof.
  unfold Generate. intros H.
  destruct (idType >? TypeMax); [inv_pair H; apply framed_refl_fail |].
  destruct (clk 0%nat <? time n) eqn:Eback.
  - destruct (clk 0%nat <? sub64 (time n) 1);
      cbn [time seq set_clockWarningCount set_seq] in H;
      rewrite Z.eqb_refl in H.
    all: destruct (Z.land _ SeqMax =? 0).
    all: repeat split_if H.
    all: try (inv_pair H; unfold framed; simpl; auto; fail).
    all: apply generateInternal_framed in H.
    all: eapply framed_pre; [| | | | exact H]; reflexivity.
  - destruct (clk 0%nat =? time n).
    + cbn [time seq set_seq] in H.
      destruct (Z.land _ SeqMax =? 0).
      all: repeat split_if H.
      all: try (inv_pair H; unfold framed; simpl; auto; fail).
      all: apply generateInternal_framed in H.
      all: eapply framed_pre; [| | | | exact H]; reflexivity.
    + apply generateInternal_framed in H.
      eapply framed_pre; [| | | | exact H]; reflexivity.
Qed.

Lemma GenerateWithTimestamp_framed (idType timestamp : Z) (n n' : Node)
      (r : Outcome) :
  GenerateWithTimestamp idType timestamp n = (n', r) -> framed n n' r.
Proof.
  unfold GenerateWithTimestamp. intros H.
  destruct (idType >? TypeMax); [inv_pair H; apply framed_refl_fail |].
  destruct (sinceEpoch timestamp =? time n).
  - cbn [time seq set_seq] in H.
    destruct (Z.land _ SeqMax =? 0).
    + inv_pair H; unfold framed; simpl; auto.
    + apply generateInternal_framed in H.
      eapply framed_pre; [| | | | exact H]; reflexivity.
  - apply generateInternal_framed in H.
    eapply framed_pre; [| | | | exact H]; reflexivity.
Qed.

Lemma call_framed (c : Call) (n n' : Node) (r : Outcome) :
  call c n = (n', r) -> framed n n' r.
Proof.
  destruct c; simpl.
  - apply Generate_framed.
  - apply GenerateWithTimestamp_framed.
Qed.

Lemma last_default_irrelevant {A : Type} (x : A) (l : list A) (d d' : A) :
  last (x :: l) d = last (x :: l) d'.
Proof.
  revert x. induction l as [| y l IH]; intros x; [reflexivity |].
  change (last (y :: l) d = last (y :: l) d'). apply IH.
Qed.

(** Along a run on a strict node the successes ascend from [lastID]. *)
Lemma run_sorted (cs : list Call) (n n' : Node) (rs : list Outcome) :
  strictMonotonicityChecks n = true ->
  run cs n = (n', rs) ->
  strictMonotonicityChecks n' = true /\
  StronglySorted Z.lt (successes rs) /\
  Forall (fun id => lastID n < id) (successes rs) /\
  lastID n <= lastID n' /\
  lastID n' = last (successes rs) (lastID n).
Proof.
  revert n n' rs. induction cs as [| c cs IH]; intros n n' rs Hs; simpl.
  - intros [= <- <-]. simpl. repeat split; auto; try lia. constructor.
  - destruct (call c n) as [n1 r] eqn:Hc.
    destruct (run cs n1) as [n2 rs'] eqn:Hr.
    intros [= <- <-].
    apply call_framed in Hc. destruct Hc as (_ & Hs1 & _ & Hl).
    rewrite Hs in Hs1.
    destruct (IH _ _ _ Hs1 Hr) as (Hs2 & Hsort & Hall & Hle & Hlast).
    destruct r as [id | e]; simpl.
    + destruct Hl as [Hl Hlt]. specialize (Hlt Hs). subst id.
      repeat split; auto; try lia.
      * constructor; auto.
      * constructor; auto.
        eapply Forall_impl; [| exact Hall]. simpl. intros; lia.
      * rewrite Hlast. destruct (successes rs'); [reflexivity |].
        apply last_default_irrelevant.
    + rewrite Hl in *. repeat split; auto.
Qed.

(** The sequence step [(n.seq + 1) & SeqMax] on a sequence in range. *)
Lemma seq_step (s : Z) :
  0 <= s <= SeqMax ->
  Z.land (add64 s 1) SeqMax = if s =? SeqMax then 0 else s + 1.
Proof.
  change SeqMax with (Z.ones 10). rewrite Z.land_ones by lia.
  change (Z.ones 10) with 1023. intros H.
  unfold add64. rewrite wrap64_small by lia.
  destruct (Z.eqb_spec s 1023) as [-> | Hne]; [reflexivity |].
  apply Z.mod_small. lia.
Qed.

(** [Generate] on a valid category and a sequence in range: either the
    clock is stuck after the sequence wrapped, or [generateInternal] runs
    at a time [now] not before [time n], with the next sequence in the same
    millisecond or sequence 0 in a later one. *)
Lemma Generate_cases (clk : Clock) (idType : Z) (n n' : Node)
      (r : Outcome) :
  idType <= TypeMax -> 0 <= seq n <= SeqMax ->
  Generate clk idType n = (n', r) ->
  (exists now m,
      generateInternal idType now m = (n', r) /\
      node m = node n /\ lastID m = lastID n /\
      strictMonotonicityChecks m = strictMonotonicityChecks n /\
      ((now = time n /\ seq n < SeqMax /\ seq m = seq n + 1) \/
       (time n < now /\ seq m = 0))) \/
  (r = Fail (ErrClockNotAdvancing ClockStuck) /\ seq n = SeqMax /\
   seq n' = 0 /\ time n' = time n /\ lastID n' = lastID n).
Proof.
  intros Hty Hseq. unfold Generate.
  destruct (idType >? TypeMax) eqn:E; [lia | clear E].
  pose proof (seq_step (seq n) Hseq) as Hstep.
  set (n1 := if clk 0%nat <? sub64 (time n) 1
             then set_clockWarningCount (add64 (clockWarningCount n) 1) n
             else n).
  assert (Hn1 : node n1 = node n /\ lastID n1 = lastID n /\
                time n1 = time n /\ seq n1 = seq n /\
                strictMonotonicityChecks n1 = strictMonotonicityChecks n)
    by (subst n1; destruct (clk 0%nat <? sub64 (time n) 1); simpl; auto).
  destruct Hn1 as (Hnode & Hlast & Htime & Hsq & Hstrict).
  set (p := if clk 0%nat <? time n then (n1, time n1) else (n, clk 0%nat)).
  assert (Hp : exists m now, p = (m, now) /\ node m = node n /\
                 lastID m = lastID n /\ time m = time n /\
                 seq m = seq n /\
                 strictMonotonicityChecks m = strictMonotonicityChecks n /\
                 time n <= now).
  { subst p. destruct (clk 0%nat <? time n) eqn:E.
    - exists n1, (time n1). repeat split; auto. lia.
    - exists n, (clk 0%nat). repeat split; auto. lia. }
  destruct Hp as (m & now & -> & Hm1 & Hm2 & Hm3 & Hm4 & Hm5 & Hle).
  destruct (Z.eqb_spec now (time m)) as [Heq | Hne].
  - cbn [seq time set_seq]. rewrite Hm4, Hstep.
    destruct (Z.eqb_spec (seq n) SeqMax) as [Hmax | Hnmax].
    + rewrite Z.eqb_refl.
      destruct (rolloverWait clk (time m) maxRolloverWaitAttempts 1 now)
        as [now' |] eqn:Ew.
      * intros H. left. exists now', (set_seq 0 m).
        apply rolloverWait_later in Ew.
        repeat split; auto. right. split; [lia | reflexivity].
      * intros H. inv_pair H. right. simpl. repeat split; auto.
    + destruct (Z.eqb_spec (seq n + 1) 0) as [H0 | _]; [lia |].
      intros H. left. exists now, (set_seq (seq n + 1) m).
      repeat split; auto. left. repeat split; [lia | lia].
  - intros H. left. exists now, (set_seq 0 m).
    repeat split; auto. right. split; [lia | reflexivity].
Qed.


(** A node as [NewNode] makes it. *)
Lemma NewNode_fresh (nodeID : Z) (options : list NodeOption) (n0 : Node) :
  Forall packageOption options ->
  NewNode nodeID options = inr n0 ->
  lastID n0 = 0 /\ time n0 = 0 /\ seq n0 = 0 /\
  node n0 = nodeID /\ 0 <= nodeID <= NodeMax.
Proof.
  intros Hopts. unfold NewNode.
  destruct ((nodeID <? 0) || (nodeID >? NodeMax)) eqn:E; [discriminate |].
  apply orb_false_elim in E. destruct E as [E1 E2].
  intros [= <-].
  assert (Hinv : forall n : Node,
             lastID n = 0 /\ time n = 0 /\ seq n = 0 /\ node n = nodeID ->
             let n' := fold_left (fun n option => option n) options n in
             lastID n' = 0 /\ time n' = 0 /\ seq n' = 0 /\
             node n' = nodeID).
  { induction Hopts as [| o os Ho _ IH]; intros n Hn; simpl; [exact Hn |].
    apply IH. destruct Ho; simpl; exact Hn. }
  specialize (Hinv (mkNode 0 nodeID 0 0 0 true false)).
  simpl in Hinv. destruct Hinv as (H1 & H2 & H3 & H4); auto.
  repeat split; auto; lia.
Qed.

Lemma synced_mono (c c2 : Z) (n : Node) :
  c <= c2 -> synced c n -> synced c2 n.
Proof.
  intros Hle (Hn & [Hf | (c' & Hc' & Hv & Hl)]); split; auto.
  right. exists c'. split; [lia | split; assumption].
Qed.

Lemma synced_ranges (c : Z) (n : Node) :
  synced c n -> 0 <= seq n <= SeqMax /\ 0 <= time n <= TimestampMax.
Proof.
  intros (Hn & [(_ & -> & ->) | (c' & Hc' & Hv & Hl)]).
  - change SeqMax with 1023. change TimestampMax with (2 ^ 41 - 1). lia.
  - destruct Hv as (_ & Ht & _ & Hs). auto.
Qed.

(** From a synced state, [generateInternal] at a later point of the
    (time, sequence) order passes the monotonicity check. *)
Lemma generateInternal_synced (c now : Z) (n m n' : Node) (r : Outcome) :
  synced c n -> 0 <= c <= TypeMax ->
  node m = node n -> lastID m = lastID n ->
  (now = time n /\ seq n < SeqMax /\ seq m = seq n + 1) \/
  (time n < now /\ seq m = 0) ->
  generateInternal c now m = (n', r) ->
  match r with
  | Ok id => synced c n' /\ time n' = now /\ seq n' = seq m /\
             id = packID c now (node n) (seq m) /\ now <= TimestampMax
  | Fail e => e = ErrTimestampOverflow /\ TimestampMax < now
  end.
Proof.
  intros Hsync Hc Hnode Hlast Hpos H.
  pose proof (synced_ranges _ _ Hsync) as (Hsq & Htm).
  destruct Hsync as (Hnd & Hst).
  apply generateInternal_frame in H.
  destruct H as (Hn' & Hs' & Ht' & _ & _ & Hr).
  rewrite Hnode, Hlast in Hr.
  assert (Hkey : now <= TimestampMax ->
                 validFields c now (node n) (seq m) /\
                 lastID n < packID c now (node n) (seq m)).
  { intros Hnow.
    assert (Hv : validFields c now (node n) (seq m)).
    { unfold validFields. repeat split; try lia.
      all: revert Hsq; change SeqMax with 1023; intros; lia. }
    split; [exact Hv |].
    destruct Hst as [(Hl & Ht & Hs) | (c' & Hc' & Hv' & Hl)].
    - rewrite Hl, packID_sum by exact Hv.
      apply validFields_bounds in Hv. lia.
    - rewrite Hl. apply packID_lt; auto. lia. }
  destruct r as [id | e].
  - destruct Hr as (-> & Hnow & Hl & _).
    destruct (Hkey Hnow) as [Hv _].
    rewrite Hnode in Hn'.
    split; [| repeat split; auto].
    split; [rewrite Hn'; exact Hnd |].
    right. exists c. rewrite Hn', Hs', Ht'.
    split; [lia | split; [exact Hv | exact Hl]].
  - destruct Hr as (_ & [(-> & Hov) | (-> & Hnow & _ & Hle)]); [auto |].
    destruct (Hkey Hnow) as [_ Hlt]. lia.
Qed.









(** What a failed call has done to the state. *)
Lemma generateInternal_failed (idType now : Z) (n n' : Node) (e : GenError) :
  generateInternal idType now n = (n', Fail e) ->
  e <> ErrInvalIDType /\ (forall why, e <> ErrClockNotAdvancing why) /\
  (e = ErrTimestampOverflow -> TimestampMax < time n').
Proof.
  intros H. apply generateInternal_frame in H.
  destruct H as (_ & _ & Ht & _ & _ & _ & [(-> & Hov) | (-> & _)]).
  - repeat split; try discriminate. intros _. lia.
  - repeat split; discriminate.
Qed.

Lemma generateInternal_failedPost (idType now : Z) (n0 n n' : Node)
      (e : GenError) :
  generateInternal idType now n = (n', Fail e) -> failedPost n0 n' e.
Proof.
  intros H. apply generateInternal_failed in H.
  destruct H as (H1 & H2 & H3). unfold failedPost.
  split; [intros He; contradiction |]. split; [| exact H3].
  intros why He. exfalso. exact (H2 why He).
Qed.

Lemma Generate_failedPost (clk : Clock) (idType : Z) (n n' : Node)
      (e : GenError) :
  Generate clk idType n = (n', Fail e) -> failedPost n n' e.
Proof.
  unfold Generate. intros H.
  destruct (idType >? TypeMax).
  { injection H as <- <-. unfold failedPost.
    repeat split; auto; discriminate. }
  destruct (clk 0%nat <? time n) eqn:Eback.
  - destruct (clk 0%nat <? sub64 (time n) 1);
      cbn [time seq set_clockWarningCount set_seq] in H;
      rewrite Z.eqb_refl in H.
    all: destruct (Z.land _ SeqMax =? 0) eqn:Ez.
    all: repeat split_if H.
    all: try (eapply generateInternal_failedPost; exact H).
    all: injection H as <- <-; apply Z.eqb_eq in Ez.
    all: unfold failedPost; simpl; repeat split; auto; discriminate.
  - destruct (clk 0%nat =? time n).
    + cbn [time seq set_seq] in H.
      destruct (Z.land _ SeqMax =? 0) eqn:Ez.
      all: repeat split_if H.
      all: try (eapply generateInternal_failedPost; exact H).
      all: injection H as <- <-; apply Z.eqb_eq in Ez.
      all: unfold failedPost; simpl; repeat split; auto; discriminate.
    + eapply generateInternal_failedPost; exact H.
Qed.

Lemma GenerateWithTimestamp_failedPost (idType timestamp : Z) (n n' : Node)
      (e : GenError) :
  GenerateWithTimestamp idType timestamp n = (n', Fail e) ->
  failedPost n n' e.
Proof.
  unfold GenerateWithTimestamp. intros H.
  destruct (idType >? TypeMax).
  { injection H as <- <-. unfold failedPost.
    repeat split; auto; discriminate. }
  destruct (sinceEpoch timestamp =? time n).
  - cbn [time seq set_seq] in H.
    destruct (Z.land _ SeqMax =? 0) eqn:Ez.
    + injection H as <- <-; apply Z.eqb_eq in Ez.
      unfold failedPost; simpl; repeat split; auto; discriminate.
    + eapply generateInternal_failedPost; exact H.
  - eapply generateInternal_failedPost; exact H.
Qed.

(** *** Strict ordering *)

(** C1: on a node with strict monotonicity checks enabled, every successful
    call returns an identifier strictly greater than the stored [lastID]
    and records it as the new [lastID]; hence the identifiers returned by
    the successful calls of any run are strictly increasing as integers. *)
Theorem strict_generation_increasing (n : Node) :
  strictMonotonicityChecks n = true ->
  (forall (c : Call) (n' : Node) (id : ID),
      call c n = (n', Ok id) -> LastID n < id /\ LastID n' = id) /\
  (forall cs : list Call,
      StronglySorted Z.lt (successes (snd (run cs n))) /\
      Forall (fun id => LastID n < id) (successes (snd (run cs n)))).
Proof.
  intros Hs. split.
  - intros c n' id H. apply call_framed in H.
    destruct H as (_ & _ & _ & Hl & Hlt). unfold LastID. auto.
  - intros cs. destruct (run cs n) as [n' rs] eqn:Hr.
    destruct (run_sorted _ _ _ _ Hs Hr) as (_ & Hsort & Hall & _).
    simpl. auto.
Qed.

Lemma strict_generation_increasing_witness :
  let n := mkNode 0 1 0 0 0 true false in
  strictMonotonicityChecks n = true /\
  ((forall (c : Call) (n' : Node) (id : ID),
       call c n = (n', Ok id) -> LastID n < id /\ LastID n' = id) /\
   (forall cs : list Call,
       StronglySorted Z.lt (successes (snd (run cs n))) /\
       Forall (fun id => LastID n < id) (successes (snd (run cs n))))).
Proof.
  split; [reflexivity |].
  apply (strict_generation_increasing (mkNode 0 1 0 0 0 true false)).
  reflexivity.
Defined.

(** *** State after a failed call *)

(** What every failed call does leave alone: [lastID], the node id and the
    two flags; an invalid category leaves the whole node as it was; a clock
    or sequence failure leaves the time as it was and the sequence at 0; a
    timestamp overflow leaves the rejected time recorded. *)
Lemma failed_call_frame (c : Call) (n n' : Node) (e : GenError) :
  call c n = (n', Fail e) ->
  LastID n' = LastID n /\ node n' = node n /\
  strictMonotonicityChecks n' = strictMonotonicityChecks n /\
  quietMode n' = quietMode n /\
  (e = ErrInvalIDType -> n' = n) /\
  (forall why, e = ErrClockNotAdvancing why ->
               seq n' = 0 /\ time n' = time n) /\
  (e = ErrTimestampOverflow -> TimestampMax < time n').
Proof.
  intros H. pose proof (call_framed _ _ _ _ H) as (Hn & Hs & Hq & Hl).
  assert (Hp : failedPost n n' e).
  { destruct c; simpl in H.
    - eapply Generate_failedPost; exact H.
    - eapply GenerateWithTimestamp_failedPost; exact H. }
  destruct Hp as (H1 & H2 & H3). unfold LastID. repeat split; auto.
  all: match goal with
       | Hw : _ = ErrClockNotAdvancing ?w |- _ =>
           destruct (H2 w Hw); assumption
       end.
Qed.

(** C5: a failed call is claimed to leave the time, the sequence and
    [lastID] as they were.  The code keeps [lastID] but has already written
    the other two.  On a node with strict checks off, 1024 calls at one
    timestamp succeed and the 1025th returns SequenceExhausted, leaving the
    sequence wrapped from 1023 to 0; the 1026th call at that timestamp then
    returns the identifier of the 2nd call again.  A call that returns
    TimestampOverflow leaves the rejected time in the node, and a later
    [Generate], whose clock reads an earlier time, holds on to it and
    overflows too. *)
Theorem failed_call_mutates_state :
  let n0 := mkNode 0 0 0 0 0 false false in
  let same := CallGenerateWithTimestamp 1 (Epoch + 5) in
  let far := CallGenerateWithTimestamp 1 (Epoch + 2199023255552) in
  let n1 := fst (run (repeat same 1024) n0) in
  let rs := snd (run (repeat same 1026) n0) in
  NewNode 0 [WithStrictMonotonicityCheck false] = inr n0 /\
  snd (call same n1) = Fail (ErrClockNotAdvancing SequenceExhausted) /\
  seq n1 = 1023 /\ seq (fst (call same n1)) = 0 /\
  nth_error rs 1 = Some (Ok 9007199254761473) /\
  nth_error rs 1024 = Some (Fail (ErrClockNotAdvancing SequenceExhausted)) /\
  nth_error rs 1025 = Some (Ok 9007199254761473) /\
  snd (call far n0) = Fail ErrTimestampOverflow /\
  time (fst (call far n0)) <> time n0 /\
  snd (run [far; CallGenerate (fun _ => 10) 1] n0)
  = [Fail ErrTimestampOverflow; Fail ErrTimestampOverflow].
Proof. vm_compute. repeat split; discriminate. Qed.

(** *** The monotonicity check *)




(** *** Fixed timestamps *)

Lemma fresh_synced (nodeID : Z) (options : list NodeOption) (n0 : Node)
      (c : Z) :
  Forall packageOption options -> NewNode nodeID options = inr n0 ->
  synced c n0 /\ time n0 = 0 /\ seq n0 = 0 /\ node n0 = nodeID.
Proof.
  intros Hopts Hnew.
  destruct (NewNode_fresh _ _ _ Hopts Hnew) as (Hl & Ht & Hs & Hn & Hr).
  repeat split; auto; try (rewrite Hn; lia).
Qed.







End GeneratorFacts.

(** ** Text codecs *)

Module CodecFacts.
Import Codec CodecSpec.

(** *** Strings of digits *)

Lemma append_nil_r (s : string) : (s ++ EmptyString)%string = s.
Proof. induction s as [| c s IH]; simpl; [| rewrite IH]; reflexivity. Qed.

Lemma append_assoc (s t u : string) :
  ((s ++ t) ++ u)%string = (s ++ (t ++ u))%string.
Proof. induction s as [| c s IH]; simpl; [| rewrite IH]; reflexivity. Qed.

Lemma append_length (s t : string) :
  String.length (s ++ t) = (String.length s + String.length t)%nat.
Proof. induction s as [| c s IH]; simpl; [| rewrite IH]; reflexivity. Qed.

Lemma chars_app (enc : Z -> ascii) (ds1 ds2 : list Z) :
  chars enc (ds1 ++ ds2) = (chars enc ds1 ++ chars enc ds2)%string.
Proof.
  induction ds1 as [| d ds1 IH]; simpl; [| rewrite IH]; reflexivity.
Qed.

Lemma chars_length (enc : Z -> ascii) (ds : list Z) :
  String.length (chars enc ds) = List.length ds.
Proof. induction ds as [| d ds IH]; simpl; [| rewrite IH]; reflexivity. Qed.

Lemma chars_snoc (enc : Z -> ascii) (ds : list Z) (d : Z) (acc : string) :
  (chars enc ds ++ String (enc d) acc)%string
  = (chars enc (ds ++ [d]) ++ acc)%string.
Proof. rewrite chars_app, append_assoc. reflexivity. Qed.

Lemma digitsValue_app (b : Z) (ds1 ds2 : list Z) (a : Z) :
  digitsValue b (ds1 ++ ds2) a = digitsValue b ds2 (digitsValue b ds1 a).
Proof. apply fold_left_app. Qed.

Lemma digitsValue_ge (b : Z) (ds : list Z) (a : Z) :
  1 <= b -> 0 <= a -> Forall (fun d => 0 <= d < b) ds ->
  a <= digitsValue b ds a.
Proof.
  intros Hb. revert a. induction ds as [| d ds IH]; intros a Ha Hds; simpl.
  - lia.
  - inversion Hds as [| ? ? Hd Hds']; subst.
    specialize (IH (a * b + d) ltac:(nia) Hds'). nia.
Qed.

Lemma digitsValue_zeros (b : Z) (k : nat) (ds : list Z) :
  digitsValue b (repeat 0 k ++ ds) 0 = digitsValue b ds 0.
Proof. induction k as [| k IH]; simpl; auto. Qed.

(** A check on every number below [n], run as a computation. *)
Lemma below_forallb (f : Z -> bool) (n : nat) :
  forallb (fun k => f (Z.of_nat k)) (List.seq 0 n) = true ->
  forall d, 0 <= d < Z.of_nat n -> f d = true.
Proof.
  intros H d Hd. rewrite forallb_forall in H.
  specialize (H (Z.to_nat d)). rewrite Z2Nat.id in H by lia.
  apply H. apply in_seq. lia.
Qed.

Section Positional.
Variable b : Z.
Hypothesis b_ge_2 : 2 <= b.

Lemma spells_snoc (ds : list Z) (u : Z) :
  0 <= u -> spells b ds (u / b) -> spells b (ds ++ [u mod b]) u.
Proof.
  intros Hu [Hall Hval]. split.
  - apply Forall_app. split; [exact Hall |].
    constructor; [apply Z.mod_pos_bound; lia | constructor].
  - intros a. rewrite digitsValue_app, Hval. simpl.
    rewrite length_app. simpl.
    rewrite Nat2Z.inj_add, Z.pow_add_r by lia.
    change (Z.of_nat 1) with 1. rewrite Z.pow_1_r.
    pose proof (Z.div_mod u b ltac:(lia)). lia.
Qed.

Lemma spells_single (u : Z) : 0 <= u < b -> spells b [u] u.
Proof.
  intros Hu. split; [constructor; [exact Hu | constructor] |].
  intros a. simpl. lia.
Qed.

Lemma spells_nil : spells b [] 0.
Proof. split; [constructor |]. intros a. simpl. lia. Qed.

Lemma spells_value (ds : list Z) (u : Z) :
  spells b ds u -> digitsValue b ds 0 = u.
Proof. intros [_ H]. rewrite H. lia. Qed.

Lemma div_lt_pow (u : Z) (k : nat) :
  0 <= u < b ^ Z.of_nat (S k) -> 0 <= u / b < b ^ Z.of_nat k.
Proof.
  rewrite Nat2Z.inj_succ, Z.pow_succ_r by lia. intros Hu. split.
  - apply Z.div_pos; lia.
  - apply Z.div_lt_upper_bound; lia.
Qed.

(** The loop of [formatBits] writes the digits of [u] in front of
    [acc]. *)
Lemma formatBitsLoop_spells (fuel : nat) :
  forall (u : Z) (acc : string),
    0 <= u < b ^ Z.of_nat (S fuel) ->
    exists ds,
      formatBitsLoop fuel b u acc
      = (chars (charAt digits) ds ++ acc)%string /\
      spells b ds u /\ ds <> [] /\ (List.length ds <= S fuel)%nat.
Proof.
  induction fuel as [| fuel IH]; intros u acc Hu.
  - exists [u]. change (Z.of_nat 1) with 1 in Hu.
    rewrite Z.pow_1_r in Hu.
    split; [reflexivity |]. split; [apply spells_single; exact Hu |].
    split; [discriminate | simpl; lia].
  - cbn [formatBitsLoop].
    destruct (Z.geb_spec u b) as [Hge | Hlt].
    + destruct (IH (u / b) (String (charAt digits (u mod b)) acc)
                   (div_lt_pow _ _ Hu))
        as (ds & Heq & Hsp & Hne & Hlen).
      exists (ds ++ [u mod b]). rewrite Heq, chars_snoc.
      split; [reflexivity |]. split; [apply spells_snoc; [lia | auto] |].
      split; [destruct ds; discriminate |].
      rewrite length_app. simpl. lia.
    + exists [u].
      split; [reflexivity |]. split; [apply spells_single; lia |].
      split; [discriminate | simpl; lia].
Qed.

(** The loop of [Base32] and [Base58] likewise, within [slots] bytes. *)
Lemma encodeLoop_spells (alphabet : string) (slots : nat) :
  forall (n : Z) (acc : string),
    0 <= n < b ^ Z.of_nat slots ->
    exists ds,
      encodeLoop alphabet b slots n acc
      = Some (chars (charAt alphabet) ds ++ acc)%string /\
      spells b ds n /\ (0 < n -> ds <> []) /\
      (List.length ds <= slots)%nat.
Proof.
  induction slots as [| slots IH]; intros n acc Hn.
  - change (Z.of_nat 0) with 0 in Hn. rewrite Z.pow_0_r in Hn.
    assert (n = 0) as -> by lia. exists [].
    split; [reflexivity |]. split; [apply spells_nil |].
    split; [lia | simpl; lia].
  - cbn [encodeLoop].
    destruct (Z.gtb_spec n 0) as [Hpos | Hz].
    + destruct (IH (n / b) (String (charAt alphabet (n mod b)) acc)
                   (div_lt_pow _ _ Hn))
        as (ds & Heq & Hsp & _ & Hlen).
      exists (ds ++ [n mod b]). rewrite Heq, chars_snoc.
      split; [reflexivity |]. split; [apply spells_snoc; [lia | auto] |].
      split; [intros _; destruct ds; discriminate |].
      rewrite length_app. simpl. lia.
    + assert (n = 0) as -> by lia. exists [].
      split; [reflexivity |]. split; [apply spells_nil |].
      split; [lia | simpl; lia].
Qed.

(** [parseUintLoop] reads back digits in range as long as the value
    fits 64 bits. *)
Lemma parseUintLoop_chars (ds : list Z) :
  b <= 36 ->
  forall (rest : string) (n : Z),
    Forall (fun d => 0 <= d < b) ds -> 0 <= n ->
    digitsValue b ds n <= MaxUint64 ->
    parseUintLoop b (MaxUint64 / b + 1) MaxUint64
                  (chars (charAt digits) ds ++ rest) n
    = parseUintLoop b (MaxUint64 / b + 1) MaxUint64 rest
                    (digitsValue b ds n).
Proof.
  intros Hb36.
  assert (Hdig : forall d, 0 <= d < 36 ->
                           digitValue (charAt digits d) = Some d).
  { intros d Hd.
    assert (H : (match digitValue (charAt digits d) with
                 | Some d' => d' =? d
                 | None => false
                 end) = true)
      by (revert d Hd; apply (below_forallb _ 36); vm_compute; reflexivity).
    destruct (digitValue (charAt digits d)); [| discriminate].
    apply Z.eqb_eq in H. congruence. }
  induction ds as [| d ds IH]; intros rest n Hall Hn Hmax;
    [reflexivity |].
  inversion Hall as [| ? ? Hd Hall']; subst.
  simpl chars. simpl append. cbn [parseUintLoop digitsValue fold_left].
  fold (digitsValue b ds (n * b + d)).
  change (digitsValue b ds (n * b + d) <= MaxUint64) in Hmax.
  pose proof (digitsValue_ge b ds (n * b + d) ltac:(lia) ltac:(nia) Hall')
    as Hge.
  rewrite Hdig by lia.
  destruct (Z.geb_spec d b) as [? | _]; [lia |].
  assert (Hcut : n < MaxUint64 / b + 1).
  { assert (n <= MaxUint64 / b); [| lia].
    apply Z.div_le_lower_bound; [lia |]. unfold MaxUint64 in *. nia. }
  destruct (Z.geb_spec n (MaxUint64 / b + 1)) as [? | _]; [lia |].
  unfold uint64. unfold MaxUint64 in *.
  rewrite (Z.mod_small (n * b)) by nia.
  rewrite (Z.mod_small (n * b + d)) by nia.
  destruct (Z.ltb_spec (n * b + d) (n * b)) as [? | _]; [lia |].
  destruct (Z.gtb_spec (n * b + d) 18446744073709551615) as [? | _];
    [lia |].
  simpl orb. cbv iota. apply IH; auto. nia.
Qed.

(** [decodeLoop] reads back digits in range through a table that
    inverts the alphabet, as long as the value fits 64 bits. *)
Lemma decodeLoop_chars (alphabet : string) (t : Table)
      (err : DecodeError) (ds : list Z) :
  b <= 64 ->
  (forall d, 0 <= d < b -> tableGet t (charAt alphabet d) = d) ->
  forall (rest : string) (val : Z),
    Forall (fun d => 0 <= d < b) ds -> 0 <= val ->
    digitsValue b ds val <= MaxUint64 ->
    decodeLoop t b err (chars (charAt alphabet) ds ++ rest) val
    = decodeLoop t b err rest (digitsValue b ds val).
Proof.
  intros Hb64 Hinv.
  induction ds as [| d ds IH]; intros rest val Hall Hval Hmax;
    [reflexivity |].
  inversion Hall as [| ? ? Hd Hall']; subst.
  simpl chars. simpl append. cbn [decodeLoop digitsValue fold_left].
  fold (digitsValue b ds (val * b + d)).
  change (digitsValue b ds (val * b + d) <= MaxUint64) in Hmax.
  pose proof (digitsValue_ge b ds (val * b + d) ltac:(lia) ltac:(nia)
                             Hall') as Hge.
  rewrite Hinv by lia.
  destruct (Z.eqb_spec d 255) as [? | _]; [lia |].
  assert (Hcut : val <= (MaxUint64 - d) / b)
    by (apply Z.div_le_lower_bound; [lia |]; unfold MaxUint64 in *; nia).
  destruct (Z.gtb_spec val ((MaxUint64 - d) / b)) as [? | _]; [lia |].
  unfold uint64. unfold MaxUint64 in *.
  rewrite (Z.mod_small (val * b + d)) by nia.
  apply IH; auto. nia.
Qed.

End Positional.

(** *** The alphabets and their tables *)

Lemma digits_not_sign (d : Z) :
  0 <= d < 36 ->
  Ascii.eqb (charAt digits d) "+" = false /\
  Ascii.eqb (charAt digits d) "-" = false.
Proof.
  intros Hd.
  assert (H : negb (Ascii.eqb (charAt digits d) "+")
              && negb (Ascii.eqb (charAt digits d) "-") = true)
    by (revert d Hd; apply (below_forallb _ 36); vm_compute; reflexivity).
  apply andb_true_iff in H. destruct H as [H1 H2].
  apply negb_true_iff in H1, H2. auto.
Qed.

Lemma decodeBase32Map_inverts (d : Z) :
  0 <= d < 32 -> tableGet decodeBase32Map (charAt encodeBase32Map d) = d.
Proof.
  intros Hd. apply Z.eqb_eq. revert d Hd.
  apply (below_forallb _ 32). vm_compute. reflexivity.
Qed.

Lemma decodeBase58Map_inverts (d : Z) :
  0 <= d < 58 -> tableGet decodeBase58Map (charAt encodeBase58Map d) = d.
Proof.
  intros Hd. apply Z.eqb_eq. revert d Hd.
  apply (below_forallb _ 58). vm_compute. reflexivity.
Qed.

Lemma decodeURLMap_inverts (d : Z) :
  0 <= d < 64 -> tableGet decodeURLMap (charAt encodeURL d) = d.
Proof.
  intros Hd. apply Z.eqb_eq. revert d Hd.
  apply (below_forallb _ 64). vm_compute. reflexivity.
Qed.

(** *** Reading back a string of digits *)

Lemma ParseInt_chars (b : Z) (ds : list Z) (v : Z) :
  2 <= b <= 36 -> ds <> [] ->
  Forall (fun d => 0 <= d < b) ds ->
  digitsValue b ds 0 = v -> v <= MaxInt64 ->
  ParseInt (chars (charAt digits) ds) b = inr v.
Proof.
  intros Hb Hne Hall Hval Hmax.
  pose proof (digitsValue_ge b ds 0 ltac:(lia) ltac:(lia) Hall) as Hge.
  destruct ds as [| d ds]; [congruence |].
  inversion Hall as [| ? ? Hd _]; subst.
  destruct (digits_not_sign d ltac:(lia)) as [Hplus Hminus].
  unfold ParseInt. cbn [chars fold_right].
  fold (chars (charAt digits) ds). rewrite Hplus, Hminus. simpl orb.
  cbv iota. unfold ParseUint.
  change (String (charAt digits d) (chars (charAt digits) ds))
    with (chars (charAt digits) (d :: ds)).
  rewrite <- (append_nil_r (chars (charAt digits) (d :: ds))).
  unfold MaxInt64 in Hmax.
  rewrite parseUintLoop_chars; auto; try lia; [| unfold MaxUint64; lia].
  cbn [parseUintLoop negb andb].
  destruct (Z.geb_spec (digitsValue b (d :: ds) 0) (2 ^ 63)); [lia |].
  rewrite wrap64_small by lia. reflexivity.
Qed.

Lemma padZeros_chars (k : nat) (ds : list Z) :
  padZeros k (chars (charAt digits) ds)
  = chars (charAt digits) (repeat 0 k ++ ds).
Proof.
  revert ds. induction k as [| k IH]; intros ds; [reflexivity |].
  cbn [padZeros].
  change (String "0" (chars (charAt digits) ds))
    with (chars (charAt digits) (0 :: ds)).
  rewrite IH. f_equal.
  change (0 :: ds) with ([0] ++ ds). rewrite app_assoc.
  change [0] with (repeat 0 1). rewrite <- repeat_app.
  rewrite Nat.add_1_r. reflexivity.
Qed.

Lemma Forall_zeros_app (b : Z) (k : nat) (ds : list Z) :
  0 < b -> Forall (fun d => 0 <= d < b) ds ->
  Forall (fun d => 0 <= d < b) (repeat 0 k ++ ds).
Proof.
  intros Hb Hds. apply Forall_app. split; [| exact Hds].
  apply Forall_forall. intros d Hd. apply repeat_spec in Hd. lia.
Qed.

Section Alphabet.
Variables (b : Z) (alphabet : string) (t : Table) (err : DecodeError).
Hypothesis b_range : 2 <= b <= 64.
Hypothesis t_inverts :
  forall d, 0 <= d < b -> tableGet t (charAt alphabet d) = d.

Lemma decodeLoop_value (ds : list Z) (v : Z) :
  Forall (fun d => 0 <= d < b) ds ->
  digitsValue b ds 0 = v -> v <= MaxUint64 ->
  decodeLoop t b err (chars (charAt alphabet) ds) 0 = inr v.
Proof.
  intros Hall Hval Hmax.
  rewrite <- (append_nil_r (chars (charAt alphabet) ds)).
  rewrite (decodeLoop_chars b ltac:(lia) alphabet t err ds);
    auto; try lia.
  simpl. congruence.
Qed.

End Alphabet.

Lemma ParseBase32_chars (ds : list Z) (v : Z) :
  ds <> [] -> (List.length ds <= 13)%nat ->
  Forall (fun d => 0 <= d < 32) ds ->
  digitsValue 32 ds 0 = v -> v <= MaxUint64 ->
  ParseBase32 (chars (charAt encodeBase32Map) ds)
  = if v >? MaxInt64 then inl ErrInvalidBase32 else inr v.
Proof.
  intros Hne Hlen Hall Hval Hmax.
  pose proof (digitsValue_ge 32 ds 0 ltac:(lia) ltac:(lia) Hall) as Hge.
  unfold ParseBase32. rewrite chars_length.
  destruct (Nat.eqb_spec (List.length ds) 0) as [H0 | _];
    [destruct ds; [congruence | discriminate] |].
  destruct (Nat.ltb_spec 13 (List.length ds)) as [? | _]; [lia |].
  rewrite (decodeLoop_value 32 encodeBase32Map decodeBase32Map
             ErrInvalidBase32 ltac:(lia) decodeBase32Map_inverts ds v);
    auto.
  destruct (Z.gtb_spec v MaxInt64); [reflexivity |].
  unfold MaxInt64 in *. rewrite wrap64_small by lia. reflexivity.
Qed.

Lemma ParseBase58_chars (ds : list Z) (v : Z) :
  ds <> [] -> (List.length ds <= 11)%nat ->
  Forall (fun d => 0 <= d < 58) ds ->
  digitsValue 58 ds 0 = v -> v <= MaxUint64 ->
  ParseBase58 (chars (charAt encodeBase58Map) ds)
  = if v >? MaxInt64 then inl ErrInvalidBase58 else inr v.
Proof.
  intros Hne Hlen Hall Hval Hmax.
  pose proof (digitsValue_ge 58 ds 0 ltac:(lia) ltac:(lia) Hall) as Hge.
  unfold ParseBase58. rewrite chars_length.
  destruct (Nat.eqb_spec (List.length ds) 0) as [H0 | _];
    [destruct ds; [congruence | discriminate] |].
  destruct (Nat.ltb_spec 11 (List.length ds)) as [? | _]; [lia |].
  rewrite (decodeLoop_value 58 encodeBase58Map decodeBase58Map
             ErrInvalidBase58 ltac:(lia) decodeBase58Map_inverts ds v);
    auto.
  destruct (Z.gtb_spec v MaxInt64); [reflexivity |].
  unfold MaxInt64 in *. rewrite wrap64_small by lia. reflexivity.
Qed.

(** *** What the encoders write *)

Lemma uint64_small (v : Z) : 0 <= v <= MaxUint64 -> uint64 v = v.
Proof. unfold uint64, MaxUint64. intros H. apply Z.mod_small. lia. Qed.

Lemma String_digits (v : Z) :
  0 <= v <= MaxInt64 ->
  exists ds, String_ v = chars (charAt digits) ds /\
             spells 10 ds v /\ ds <> [].
Proof.
  unfold MaxInt64. intros Hv. unfold String_, FormatInt.
  destruct (Z.ltb_spec v 0) as [? | _]; [lia |].
  rewrite uint64_small by (unfold MaxUint64; lia).
  destruct (formatBitsLoop_spells 10 ltac:(lia) 64 v EmptyString)
    as (ds & Heq & Hsp & Hne & _); [simpl; lia |].
  exists ds. rewrite Heq, append_nil_r. auto.
Qed.

Lemma Base2_digits (v : Z) :
  0 <= v <= MaxInt64 ->
  exists ds, Base2 v = chars (charAt digits) ds /\
             Forall (fun d => 0 <= d < 2) ds /\
             digitsValue 2 ds 0 = v /\ ds <> [].
Proof.
  unfold MaxInt64. intros Hv. unfold Base2, SprintfZeroPaddedBinary.
  destruct (Z.ltb_spec v 0) as [? | _]; [lia |].
  rewrite uint64_small by (unfold MaxUint64; lia).
  destruct (formatBitsLoop_spells 2 ltac:(lia) 64 v EmptyString)
    as (ds & Heq & Hsp & Hne & _); [simpl; lia |].
  rewrite Heq, append_nil_r, padZeros_chars.
  exists (repeat 0 (63 - String.length (chars (charAt digits) ds)) ++ ds).
  split; [reflexivity |].
  split; [apply Forall_zeros_app; [lia | apply Hsp] |].
  split; [rewrite digitsValue_zeros; apply (spells_value 2); exact Hsp |].
  destruct ds; [congruence |]. intros H. apply app_eq_nil in H.
  destruct H; discriminate.
Qed.

Lemma Base32_digits (v : Z) :
  0 < v <= MaxUint64 ->
  exists ds, Base32 v = Some (chars (charAt encodeBase32Map) ds) /\
             spells 32 ds v /\ ds <> [] /\ (List.length ds <= 13)%nat.
Proof.
  unfold MaxUint64. intros Hv. unfold Base32.
  destruct (Z.eqb_spec v 0) as [? | _]; [lia |].
  rewrite uint64_small by (unfold MaxUint64; lia).
  destruct (encodeLoop_spells 32 ltac:(lia) encodeBase32Map 13 v
                              EmptyString)
    as (ds & Heq & Hsp & Hne & Hlen); [simpl; lia |].
  exists ds. rewrite Heq, append_nil_r.
  repeat split; auto; try apply Hsp. apply Hne. lia.
Qed.

Lemma Base58_digits (v : Z) :
  0 < v <= MaxUint64 ->
  exists ds, Base58 v = Some (chars (charAt encodeBase58Map) ds) /\
             spells 58 ds v /\ ds <> [] /\ (List.length ds <= 11)%nat.
Proof.
  unfold MaxUint64. intros Hv. unfold Base58.
  destruct (Z.eqb_spec v 0) as [? | _]; [lia |].
  rewrite uint64_small by (unfold MaxUint64; lia).
  destruct (encodeLoop_spells 58 ltac:(lia) encodeBase58Map 11 v
                              EmptyString)
    as (ds & Heq & Hsp & Hne & Hlen); [simpl; lia |].
  exists ds. rewrite Heq, append_nil_r.
  repeat split; auto; try apply Hsp. apply Hne. lia.
Qed.

(** *** Round trips of the four positional codecs *)

Lemma ParseString_String (v : Z) :
  0 <= v <= MaxInt64 -> ParseString (String_ v) = inr v.
Proof.
  intros Hv. destruct (String_digits v Hv) as (ds & -> & Hsp & Hne).
  apply ParseInt_chars;
    [lia | exact Hne | apply Hsp | apply (spells_value 10); exact Hsp
    | lia].
Qed.

Lemma ParseBase2_Base2 (v : Z) :
  0 <= v <= MaxInt64 -> ParseBase2 (Base2 v) = inr v.
Proof.
  intros Hv. destruct (Base2_digits v Hv) as (ds & -> & Hall & Hval & Hne).
  apply ParseInt_chars; auto; lia.
Qed.

Lemma ParseBase32_Base32 (v : Z) :
  0 <= v <= MaxInt64 ->
  exists s, Base32 v = Some s /\ ParseBase32 s = inr v.
Proof.
  intros Hv. destruct (Z.eq_dec v 0) as [-> | Hnz].
  - eexists. split; reflexivity.
  - unfold MaxInt64 in Hv.
    destruct (Base32_digits v ltac:(unfold MaxUint64; lia))
      as (ds & Heq & Hsp & Hne & Hlen).
    eexists. split; [exact Heq |].
    rewrite (ParseBase32_chars ds v);
      [| exact Hne | exact Hlen | apply Hsp
       | apply (spells_value 32); exact Hsp | unfold MaxUint64; lia].
    destruct (Z.gtb_spec v MaxInt64) as [H | _]; [| reflexivity].
    unfold MaxInt64 in H. lia.
Qed.

Lemma ParseBase58_Base58 (v : Z) :
  0 <= v <= MaxInt64 ->
  exists s, Base58 v = Some s /\ ParseBase58 s = inr v.
Proof.
  intros Hv. destruct (Z.eq_dec v 0) as [-> | Hnz].
  - eexists. split; reflexivity.
  - unfold MaxInt64 in Hv.
    destruct (Base58_digits v ltac:(unfold MaxUint64; lia))
      as (ds & Heq & Hsp & Hne & Hlen).
    eexists. split; [exact Heq |].
    rewrite (ParseBase58_chars ds v);
      [| exact Hne | exact Hlen | apply Hsp
       | apply (spells_value 58); exact Hsp | unfold MaxUint64; lia].
    destruct (Z.gtb_spec v MaxInt64) as [H | _]; [| reflexivity].
    unfold MaxInt64 in H. lia.
Qed.

(** *** Base 64 *)

(** A multiple of [2^k] and a number below [2^k] have no bit in common. *)
Lemma lor_hi_lo (h l k : Z) :
  0 <= k -> h mod 2 ^ k = 0 -> 0 <= l < 2 ^ k -> Z.lor h l = h + l.
Proof.
  intros Hk Hh Hl.
  assert (Hq : h = h / 2 ^ k * 2 ^ k).
  { pose proof (Z.div_mod h (2 ^ k) ltac:(lia)). lia. }
  rewrite Hq at 1. rewrite lor_mul_add by assumption. lia.
Qed.

Lemma lor_lo_hi (l h k : Z) :
  0 <= k -> h mod 2 ^ k = 0 -> 0 <= l < 2 ^ k -> Z.lor l h = l + h.
Proof.
  intros Hk Hh Hl. rewrite Z.lor_comm, (lor_hi_lo h l k) by assumption.
  lia.
Qed.

Ltac divmod := Z.div_mod_to_equations; lia.

Lemma sextet_lookup (val shift : Z) :
  0 <= shift ->
  tableGet decodeURLMap (sextet val shift) = sextetValue val shift /\
  (sextetValue val shift =? 255) = false.
Proof.
  intros Hs. unfold sextet, sextetValue.
  change 63 with (Z.ones 6). rewrite Z.land_ones, Z.shiftr_div_pow2 by lia.
  change (2 ^ 6) with 64.
  pose proof (Z.mod_pos_bound (val / 2 ^ shift) 64 ltac:(lia)) as Hb.
  split; [apply decodeURLMap_inverts; lia | apply Z.eqb_neq; lia].
Qed.

(** Four characters of one quantum, decoded. *)
Lemma decodeQuanta_four (val : Z) (rest : string) (dst : list Z) :
  decodeQuanta
    (String (sextet val 18) (String (sextet val 12)
       (String (sextet val 6) (String (sextet val 0) rest)))) [] dst
  = decodeQuanta rest []
      (dst ++ quantumBytes [sextetValue val 18; sextetValue val 12;
                            sextetValue val 6; sextetValue val 0]).
Proof.
  cbn [decodeQuanta].
  destruct (sextet_lookup val 18 ltac:(lia)) as [-> ->].
  destruct (sextet_lookup val 12 ltac:(lia)) as [-> ->].
  destruct (sextet_lookup val 6 ltac:(lia)) as [-> ->].
  destruct (sextet_lookup val 0 ltac:(lia)) as [-> ->].
  reflexivity.
Qed.

Lemma decodeQuanta_three (val : Z) (dst : list Z) :
  decodeQuanta
    (String (sextet val 18) (String (sextet val 12)
       (String (sextet val 6) EmptyString))) [] dst
  = inr (dst ++ quantumBytes [sextetValue val 18; sextetValue val 12;
                              sextetValue val 6]).
Proof.
  cbn [decodeQuanta].
  destruct (sextet_lookup val 18 ltac:(lia)) as [-> ->].
  destruct (sextet_lookup val 12 ltac:(lia)) as [-> ->].
  destruct (sextet_lookup val 6 ltac:(lia)) as [-> ->].
  reflexivity.
Qed.

(** Three bytes through four sextets and back. *)
Lemma quantumBytes_four (b0 b1 b2 : Z) :
  isByte b0 -> isByte b1 -> isByte b2 ->
  let val := Z.lor (Z.lor (Z.shiftl b0 16) (Z.shiftl b1 8)) b2 in
  quantumBytes [sextetValue val 18; sextetValue val 12;
                sextetValue val 6; sextetValue val 0]
  = [b0; b1; b2].
Proof.
  intros H0 H1 H2 val. unfold isByte in *.
  assert (Hval : val = b0 * 2 ^ 16 + b1 * 2 ^ 8 + b2).
  { subst val. rewrite !Z.shiftl_mul_pow2 by lia.
    rewrite (lor_hi_lo (b0 * 2 ^ 16) (b1 * 2 ^ 8) 16) by (try lia; divmod).
    rewrite (lor_hi_lo _ b2 8) by (try lia; divmod). reflexivity. }
  clearbody val. subst val.
  unfold quantumBytes, sextetValue.
  rewrite !Z.shiftl_mul_pow2, !Z.shiftr_div_pow2 by lia.
  set (val := b0 * 2 ^ 16 + b1 * 2 ^ 8 + b2).
  assert (Hv : 0 <= val < 2 ^ 24) by (subst val; lia).
  rewrite (lor_hi_lo ((val / 2 ^ 18) mod 64 * 2 ^ 18)
                     ((val / 2 ^ 12) mod 64 * 2 ^ 12) 18)
    by (try lia; divmod).
  rewrite (lor_hi_lo _ ((val / 2 ^ 6) mod 64 * 2 ^ 6) 12)
    by (try lia; divmod).
  rewrite (lor_hi_lo _ ((val / 2 ^ 0) mod 64) 6) by (try lia; divmod).
  replace ((val / 2 ^ 18) mod 64 * 2 ^ 18 + (val / 2 ^ 12) mod 64 * 2 ^ 12
           + (val / 2 ^ 6) mod 64 * 2 ^ 6 + (val / 2 ^ 0) mod 64)
    with val by divmod.
  subst val. repeat f_equal; divmod.
Qed.

(** Two bytes through three sextets and back. *)
Lemma quantumBytes_three (b0 b1 : Z) :
  isByte b0 -> isByte b1 ->
  let val := Z.lor (Z.shiftl b0 16) (Z.shiftl b1 8) in
  quantumBytes [sextetValue val 18; sextetValue val 12; sextetValue val 6]
  = [b0; b1].
Proof.
  intros H0 H1 val. unfold isByte in *.
  assert (Hval : val = b0 * 2 ^ 16 + b1 * 2 ^ 8).
  { subst val. rewrite !Z.shiftl_mul_pow2 by lia.
    rewrite (lor_hi_lo (b0 * 2 ^ 16) (b1 * 2 ^ 8) 16) by (try lia; divmod).
    reflexivity. }
  clearbody val. subst val.
  unfold quantumBytes, sextetValue.
  rewrite !Z.shiftl_mul_pow2, !Z.shiftr_div_pow2 by lia.
  set (val := b0 * 2 ^ 16 + b1 * 2 ^ 8).
  assert (Hv : 0 <= val < 2 ^ 24) by (subst val; lia).
  rewrite (lor_hi_lo ((val / 2 ^ 18) mod 64 * 2 ^ 18)
                     ((val / 2 ^ 12) mod 64 * 2 ^ 12) 18)
    by (try lia; divmod).
  rewrite (lor_hi_lo _ ((val / 2 ^ 6) mod 64 * 2 ^ 6) 12)
    by (try lia; divmod).
  replace ((val / 2 ^ 18) mod 64 * 2 ^ 18 + (val / 2 ^ 12) mod 64 * 2 ^ 12
           + (val / 2 ^ 6) mod 64 * 2 ^ 6)
    with val by (subst val; divmod).
  subst val. repeat f_equal; divmod.
Qed.

(** Eight bytes survive [EncodeToString] and [DecodeString]. *)
Lemma DecodeString_EncodeToString_8 (b0 b1 b2 b3 b4 b5 b6 b7 : Z) :
  isByte b0 -> isByte b1 -> isByte b2 -> isByte b3 ->
  isByte b4 -> isByte b5 -> isByte b6 -> isByte b7 ->
  DecodeString (EncodeToString [b0; b1; b2; b3; b4; b5; b6; b7])
  = inr [b0; b1; b2; b3; b4; b5; b6; b7].
Proof.
  intros H0 H1 H2 H3 H4 H5 H6 H7.
  unfold DecodeString. cbn [EncodeToString].
  rewrite decodeQuanta_four, quantumBytes_four by assumption.
  rewrite decodeQuanta_four, quantumBytes_four by assumption.
  rewrite decodeQuanta_three, quantumBytes_three by assumption.
  reflexivity.
Qed.

Lemma PutUint64_bytes (v : Z) :
  exists b0 b1 b2 b3 b4 b5 b6 b7,
    PutUint64 v = [b0; b1; b2; b3; b4; b5; b6; b7] /\
    isByte b0 /\ isByte b1 /\ isByte b2 /\ isByte b3 /\
    isByte b4 /\ isByte b5 /\ isByte b6 /\ isByte b7.
Proof.
  unfold PutUint64, isByte. do 8 eexists. split; [reflexivity |].
  repeat split; apply Z.mod_pos_bound; lia.
Qed.

Lemma Uint64_PutUint64 (v : Z) :
  0 <= v <= MaxUint64 -> Uint64 (PutUint64 v) = v.
Proof.
  unfold MaxUint64. intros Hv. unfold Uint64, PutUint64.
  rewrite !Z.shiftl_mul_pow2, !Z.shiftr_div_pow2 by lia.
  rewrite (lor_lo_hi ((v / 2 ^ 48) mod 256 * 2 ^ 48) _ 56)
    by (try lia; divmod).
  rewrite (lor_lo_hi ((v / 2 ^ 40) mod 256 * 2 ^ 40) _ 48)
    by (try lia; divmod).
  rewrite (lor_lo_hi ((v / 2 ^ 32) mod 256 * 2 ^ 32) _ 40)
    by (try lia; divmod).
  rewrite (lor_lo_hi ((v / 2 ^ 24) mod 256 * 2 ^ 24) _ 32)
    by (try lia; divmod).
  rewrite (lor_lo_hi ((v / 2 ^ 16) mod 256 * 2 ^ 16) _ 24)
    by (try lia; divmod).
  rewrite (lor_lo_hi ((v / 2 ^ 8) mod 256 * 2 ^ 8) _ 16)
    by (try lia; divmod).
  rewrite (lor_lo_hi (v mod 256) _ 8) by (try lia; divmod).
  divmod.
Qed.

Lemma ParseBase64_Base64_unsigned (v : Z) :
  0 <= v <= MaxUint64 ->
  ParseBase64 (EncodeToString (PutUint64 v))
  = if v >? MaxInt64 then inl ErrBase64Overflow else inr v.
Proof.
  intros Hv. unfold ParseBase64.
  destruct (PutUint64_bytes v)
    as (b0 & b1 & b2 & b3 & b4 & b5 & b6 & b7 & Heq & H).
  pose proof (Uint64_PutUint64 v Hv) as Hu. rewrite Heq in *.
  rewrite DecodeString_EncodeToString_8 by apply H.
  cbn [List.length Nat.eqb negb]. rewrite Hu.
  destruct (Z.gtb_spec v MaxInt64) as [| Hle]; [reflexivity |].
  unfold MaxInt64 in Hle. rewrite wrap64_small by lia. reflexivity.
Qed.

Lemma ParseBase64_Base64 (v : Z) :
  0 <= v <= MaxInt64 -> ParseBase64 (Base64 v) = inr v.
Proof.
  unfold MaxInt64. intros Hv. unfold Base64.
  rewrite uint64_small by (unfold MaxUint64; lia).
  rewrite ParseBase64_Base64_unsigned by (unfold MaxUint64; lia).
  destruct (Z.gtb_spec v MaxInt64) as [H |]; [| reflexivity].
  unfold MaxInt64 in H. lia.
Qed.

(** *** Round-trip laws *)

(** C2: for each of the five codecs and every value [v] with
    [0 <= v < 2^63 - 1], decoding the encoding of [v] returns [v] without
    error (the base-32 and base-58 encoders do return a string). *)
Theorem decode_encode (v : Z) :
  0 <= v < 2 ^ 63 - 1 ->
  ParseString (String_ v) = inr v /\
  ParseBase2 (Base2 v) = inr v /\
  (exists s, Base32 v = Some s /\ ParseBase32 s = inr v) /\
  (exists s, Base58 v = Some s /\ ParseBase58 s = inr v) /\
  ParseBase64 (Base64 v) = inr v.
Proof.
  intros Hv.
  assert (Hv' : 0 <= v <= MaxInt64) by (unfold MaxInt64; lia).
  split; [apply ParseString_String; exact Hv' |].
  split; [apply ParseBase2_Base2; exact Hv' |].
  split; [apply ParseBase32_Base32; exact Hv' |].
  split; [apply ParseBase58_Base58; exact Hv' |].
  apply ParseBase64_Base64; exact Hv'.
Qed.

Lemma decode_encode_witness :
  ParseString (String_ 1234567890123456789) = inr 1234567890123456789 /\
  ParseBase2 (Base2 1234567890123456789) = inr 1234567890123456789 /\
  (exists s, Base32 1234567890123456789 = Some s /\
             ParseBase32 s = inr 1234567890123456789) /\
  (exists s, Base58 1234567890123456789 = Some s /\
             ParseBase58 s = inr 1234567890123456789) /\
  ParseBase64 (Base64 1234567890123456789) = inr 1234567890123456789.
Proof. apply (decode_encode 1234567890123456789). lia. Defined.

(** *** Non-canonical encodings *)

Lemma prepend_chars (enc : Z -> ascii) (k : nat) (ds : list Z) :
  prepend (enc 0) k (chars enc ds) = chars enc (repeat 0 k ++ ds).
Proof. induction k as [| k IH]; simpl; [| rewrite IH]; reflexivity. Qed.

Lemma prepend_length (c : ascii) (k : nat) (s : string) :
  String.length (prepend c k s) = (k + String.length s)%nat.
Proof. induction k as [| k IH]; simpl; [| rewrite IH]; reflexivity. Qed.

Lemma prepend_neq (c : ascii) (k : nat) (s : string) :
  (1 <= k)%nat -> prepend c k s <> s.
Proof.
  intros Hk Heq. apply (f_equal String.length) in Heq.
  rewrite prepend_length in Heq. lia.
Qed.

(** The digits behind [Base32] and [Base58], zero included. *)
Lemma Base32_digits0 (v : Z) :
  0 <= v <= MaxInt64 ->
  exists ds, Base32 v = Some (chars (charAt encodeBase32Map) ds) /\
             Forall (fun d => 0 <= d < 32) ds /\
             digitsValue 32 ds 0 = v /\ ds <> [] /\
             (List.length ds <= 13)%nat.
Proof.
  intros Hv. destruct (Z.eq_dec v 0) as [-> | Hnz].
  - exists [0]. split; [reflexivity |].
    split; [constructor; [lia | constructor] |].
    split; [reflexivity |]. split; [discriminate | simpl; lia].
  - unfold MaxInt64 in Hv.
    destruct (Base32_digits v ltac:(unfold MaxUint64; lia))
      as (ds & Heq & Hsp & Hne & Hlen).
    exists ds. split; [exact Heq |]. split; [apply Hsp |].
    split; [apply (spells_value 32); exact Hsp | auto].
Qed.

Lemma Base58_digits0 (v : Z) :
  0 <= v <= MaxInt64 ->
  exists ds, Base58 v = Some (chars (charAt encodeBase58Map) ds) /\
             Forall (fun d => 0 <= d < 58) ds /\
             digitsValue 58 ds 0 = v /\ ds <> [] /\
             (List.length ds <= 11)%nat.
Proof.
  intros Hv. destruct (Z.eq_dec v 0) as [-> | Hnz].
  - exists [0]. split; [reflexivity |].
    split; [constructor; [lia | constructor] |].
    split; [reflexivity |]. split; [discriminate | simpl; lia].
  - unfold MaxInt64 in Hv.
    destruct (Base58_digits v ltac:(unfold MaxUint64; lia))
      as (ds & Heq & Hsp & Hne & Hlen).
    exists ds. split; [exact Heq |]. split; [apply Hsp |].
    split; [apply (spells_value 58); exact Hsp | auto].
Qed.

Lemma zeros_app_nonempty (k : nat) (ds : list Z) :
  ds <> [] -> repeat 0 k ++ ds <> [].
Proof.
  intros Hne H. apply app_eq_nil in H. destruct H. contradiction.
Qed.

(** C10: the base-32 and base-58 decoders accept non-canonical strings.
    For every identifier [v] and every [k >= 1], the encoding of [v] with
    [k] copies of the alphabet's first character in front decodes to [v]
    whenever it is within the length cap (13 and 11 characters); it differs
    from the encoding of [v], which decodes to [v] too, so the decoders are
    not injective and encoding a decoded string does not give it back. *)
Theorem leading_zero_accepted (v : Z) (k : nat) :
  0 <= v <= MaxInt64 -> (1 <= k)%nat ->
  (exists s,
      Base32 v = Some s /\ ParseBase32 s = inr v /\
      let s' := prepend (charAt encodeBase32Map 0) k s in
      ((String.length s' <= 13)%nat ->
       ParseBase32 s' = inr v /\ s' <> s /\ Base32 v <> Some s')) /\
  (exists s,
      Base58 v = Some s /\ ParseBase58 s = inr v /\
      let s' := prepend (charAt encodeBase58Map 0) k s in
      ((String.length s' <= 11)%nat ->
       ParseBase58 s' = inr v /\ s' <> s /\ Base58 v <> Some s')).
Proof.
  intros Hv Hk.
  assert (Hgt : (v >? MaxInt64) = false)
    by (destruct (Z.gtb_spec v MaxInt64); [lia | reflexivity]).
  assert (Hu : v <= MaxUint64) by (unfold MaxInt64, MaxUint64 in *; lia).
  split.
  - destruct (Base32_digits0 v Hv) as (ds & Heq & Hall & Hval & Hne & Hlen).
    exists (chars (charAt encodeBase32Map) ds). split; [exact Heq |].
    split; [rewrite (ParseBase32_chars ds v), Hgt; auto |].
    intros s' Hlen'. subst s'.
    pose proof (prepend_neq (charAt encodeBase32Map 0) k
                  (chars (charAt encodeBase32Map) ds) Hk) as Hneq.
    split; [| split; [exact Hneq | rewrite Heq; congruence]].
    rewrite prepend_length, chars_length in Hlen'.
    rewrite prepend_chars.
    rewrite (ParseBase32_chars (repeat 0 k ++ ds) v), Hgt; auto.
    + apply zeros_app_nonempty; exact Hne.
    + rewrite length_app, repeat_length. exact Hlen'.
    + apply Forall_zeros_app; [lia | exact Hall].
    + rewrite digitsValue_zeros. exact Hval.
  - destruct (Base58_digits0 v Hv) as (ds & Heq & Hall & Hval & Hne & Hlen).
    exists (chars (charAt encodeBase58Map) ds). split; [exact Heq |].
    split; [rewrite (ParseBase58_chars ds v), Hgt; auto |].
    intros s' Hlen'. subst s'.
    pose proof (prepend_neq (charAt encodeBase58Map 0) k
                  (chars (charAt encodeBase58Map) ds) Hk) as Hneq.
    split; [| split; [exact Hneq | rewrite Heq; congruence]].
    rewrite prepend_length, chars_length in Hlen'.
    rewrite prepend_chars.
    rewrite (ParseBase58_chars (repeat 0 k ++ ds) v), Hgt; auto.
    + apply zeros_app_nonempty; exact Hne.
    + rewrite length_app, repeat_length. exact Hlen'.
    + apply Forall_zeros_app; [lia | exact Hall].
    + rewrite digitsValue_zeros. exact Hval.
Qed.

Lemma leading_zero_accepted_witness :
  (exists s,
      Base32 33 = Some s /\ ParseBase32 s = inr 33 /\
      let s' := prepend (charAt encodeBase32Map 0) 2 s in
      ((String.length s' <= 13)%nat ->
       ParseBase32 s' = inr 33 /\ s' <> s /\ Base32 33 <> Some s')) /\
  (exists s,
      Base58 33 = Some s /\ ParseBase58 s = inr 33 /\
      let s' := prepend (charAt encodeBase58Map 0) 2 s in
      ((String.length s' <= 11)%nat ->
       ParseBase58 s' = inr 33 /\ s' <> s /\ Base58 33 <> Some s')).
Proof. apply (leading_zero_accepted 33 2); [unfold MaxInt64; lia | lia]. Defined.

(** *** What the decoders accept *)

Lemma ascii_forallb (p : ascii -> bool) :
  forallb (fun n => p (ascii_of_nat n)) (List.seq 0 256) = true ->
  forall c, p c = true.
Proof.
  intros H c. rewrite forallb_forall in H.
  rewrite <- (ascii_nat_embedding c). apply H. apply in_seq.
  pose proof (nat_ascii_bounded c). lia.
Qed.

Lemma allChars_impl (p q : ascii -> bool) (s : string) :
  (forall c, p c = true -> q c = true) ->
  allChars p s = true -> allChars q s = true.
Proof.
  intros Hpq. induction s as [| c s IH]; simpl; [auto |].
  rewrite !andb_true_iff. intros [Hc Hs]. auto.
Qed.

Section DecodeLoop.
Variables (b : Z) (t : Table) (err : DecodeError).
Hypothesis b_pos : 2 <= b.
Hypothesis t_range : forall c, 0 <= tableGet t c <= 255.

Lemma decodeLoop_success (s : string) :
  forall val r,
    0 <= val <= MaxUint64 ->
    decodeLoop t b err s val = inr r ->
    allChars (fun c => negb (tableGet t c =? 255)) s = true /\
    r = valueOf t b s val /\ 0 <= r <= MaxUint64.
Proof.
  induction s as [| c s IH]; intros val r Hval;
    cbn [decodeLoop allChars valueOf].
  - intros [= <-]. auto.
  - pose proof (t_range c) as Hd.
    destruct (Z.eqb_spec (tableGet t c) 255) as [| Hne]; [discriminate |].
    destruct (Z.gtb_spec val ((MaxUint64 - tableGet t c) / b))
      as [| Hle]; [discriminate |].
    assert (Hfit : val * b + tableGet t c <= MaxUint64).
    { pose proof (Z.mul_div_le (MaxUint64 - tableGet t c) b ltac:(lia)).
      unfold MaxUint64 in *. nia. }
    unfold uint64. unfold MaxUint64 in *.
    rewrite Z.mod_small by nia.
    intros H. apply IH in H; [| nia]. cbn [negb andb]. exact H.
Qed.

End DecodeLoop.

Lemma decodeBase32Map_range (c : ascii) :
  0 <= tableGet decodeBase32Map c <= 255.
Proof.
  assert (H : (0 <=? tableGet decodeBase32Map c)
              && (tableGet decodeBase32Map c <=? 255) = true)
    by (apply (ascii_forallb
                 (fun c => (0 <=? tableGet decodeBase32Map c)
                           && (tableGet decodeBase32Map c <=? 255)));
        vm_compute; reflexivity).
  apply andb_true_iff in H. destruct H as [H1 H2].
  apply Z.leb_le in H1, H2. auto.
Qed.

Lemma decodeBase58Map_range (c : ascii) :
  0 <= tableGet decodeBase58Map c <= 255.
Proof.
  assert (H : (0 <=? tableGet decodeBase58Map c)
              && (tableGet decodeBase58Map c <=? 255) = true)
    by (apply (ascii_forallb
                 (fun c => (0 <=? tableGet decodeBase58Map c)
                           && (tableGet decodeBase58Map c <=? 255)));
        vm_compute; reflexivity).
  apply andb_true_iff in H. destruct H as [H1 H2].
  apply Z.leb_le in H1, H2. auto.
Qed.

Lemma decodeURLMap_range (c : ascii) :
  0 <= tableGet decodeURLMap c <= 255.
Proof.
  assert (H : (0 <=? tableGet decodeURLMap c)
              && (tableGet decodeURLMap c <=? 255) = true)
    by (apply (ascii_forallb
                 (fun c => (0 <=? tableGet decodeURLMap c)
                           && (tableGet decodeURLMap c <=? 255)));
        vm_compute; reflexivity).
  apply andb_true_iff in H. destruct H as [H1 H2].
  apply Z.leb_le in H1, H2. auto.
Qed.

(** An entry other than 0xFF belongs to a character of the alphabet. *)
Lemma decodeBase32Map_alphabet (c : ascii) :
  negb (tableGet decodeBase32Map c =? 255) = true ->
  occurs c encodeBase32Map = true.
Proof.
  intros H.
  assert (Hc : (tableGet decodeBase32Map c =? 255)
               || occurs c encodeBase32Map = true)
    by (apply (ascii_forallb
                 (fun c => (tableGet decodeBase32Map c =? 255)
                           || occurs c encodeBase32Map));
        vm_compute; reflexivity).
  destruct (tableGet decodeBase32Map c =? 255); [discriminate | exact Hc].
Qed.

Lemma decodeBase58Map_alphabet (c : ascii) :
  negb (tableGet decodeBase58Map c =? 255) = true ->
  occurs c encodeBase58Map = true.
Proof.
  intros H.
  assert (Hc : (tableGet decodeBase58Map c =? 255)
               || occurs c encodeBase58Map = true)
    by (apply (ascii_forallb
                 (fun c => (tableGet decodeBase58Map c =? 255)
                           || occurs c encodeBase58Map));
        vm_compute; reflexivity).
  destruct (tableGet decodeBase58Map c =? 255); [discriminate | exact Hc].
Qed.

Lemma decodeURLMap_alphabet (c : ascii) :
  negb (tableGet decodeURLMap c =? 255) = true ->
  occurs c encodeURL = true.
Proof.
  intros H.
  assert (Hc : (tableGet decodeURLMap c =? 255)
               || occurs c encodeURL = true)
    by (apply (ascii_forallb
                 (fun c => (tableGet decodeURLMap c =? 255)
                           || occurs c encodeURL));
        vm_compute; reflexivity).
  destruct (tableGet decodeURLMap c =? 255); [discriminate | exact Hc].
Qed.

Lemma ParseBase32_success (s : string) (v : Z) :
  ParseBase32 s = inr v ->
  (1 <= String.length s <= 13)%nat /\
  allChars (fun c => occurs c encodeBase32Map) s = true /\
  v = valueOf decodeBase32Map 32 s 0 /\ 0 <= v <= MaxInt64.
Proof.
  unfold ParseBase32.
  destruct (Nat.eqb_spec (String.length s) 0) as [| Hne]; [discriminate |].
  destruct (Nat.ltb_spec 13 (String.length s)) as [| Hle]; [discriminate |].
  destruct (decodeLoop decodeBase32Map 32 ErrInvalidBase32 s 0)
    as [e | val] eqn:Hloop; [discriminate |].
  apply (decodeLoop_success 32 decodeBase32Map ErrInvalidBase32
           ltac:(lia) decodeBase32Map_range) in Hloop;
    [| unfold MaxUint64; lia].
  destruct Hloop as (Hall & -> & Hr).
  destruct (Z.gtb_spec (valueOf decodeBase32Map 32 s 0) MaxInt64)
    as [| Hmax]; [discriminate |].
  unfold MaxInt64 in *. rewrite wrap64_small by lia. intros [= <-].
  split; [lia |]. split; [| split; [reflexivity | lia]].
  eapply allChars_impl; [| exact Hall]. apply decodeBase32Map_alphabet.
Qed.

Lemma ParseBase58_success (s : string) (v : Z) :
  ParseBase58 s = inr v ->
  (1 <= String.length s <= 11)%nat /\
  allChars (fun c => occurs c encodeBase58Map) s = true /\
  v = valueOf decodeBase58Map 58 s 0 /\ 0 <= v <= MaxInt64.
Proof.
  unfold ParseBase58.
  destruct (Nat.eqb_spec (String.length s) 0) as [| Hne]; [discriminate |].
  destruct (Nat.ltb_spec 11 (String.length s)) as [| Hle]; [discriminate |].
  destruct (decodeLoop decodeBase58Map 58 ErrInvalidBase58 s 0)
    as [e | val] eqn:Hloop; [discriminate |].
  apply (decodeLoop_success 58 decodeBase58Map ErrInvalidBase58
           ltac:(lia) decodeBase58Map_range) in Hloop;
    [| unfold MaxUint64; lia].
  destruct Hloop as (Hall & -> & Hr).
  destruct (Z.gtb_spec (valueOf decodeBase58Map 58 s 0) MaxInt64)
    as [| Hmax]; [discriminate |].
  unfold MaxInt64 in *. rewrite wrap64_small by lia. intros [= <-].
  split; [lia |]. split; [| split; [reflexivity | lia]].
  eapply allChars_impl; [| exact Hall]. apply decodeBase58Map_alphabet.
Qed.

Lemma digitValue_nonneg (c : ascii) (d : Z) :
  digitValue c = Some d -> 0 <= d.
Proof.
  unfold digitValue.
  destruct ((48 <=? byteOf c) && (byteOf c <=? 57)) eqn:E1.
  - apply andb_true_iff in E1. intros [= <-]. lia.
  - destruct ((97 <=? Z.lor (byteOf c) 32) && (Z.lor (byteOf c) 32 <=? 122))
      eqn:E2; [| discriminate].
    apply andb_true_iff in E2. intros [= <-]. lia.
Qed.

Lemma parseUintLoop_success (b : Z) (s : string) :
  2 <= b <= 36 ->
  forall n r,
    0 <= n <= MaxUint64 ->
    parseUintLoop b (MaxUint64 / b + 1) MaxUint64 s n = inr r ->
    allChars (isDigitOf b) s = true /\
    r = digitsVal b s n /\ 0 <= r <= MaxUint64.
Proof.
  intros Hb. induction s as [| c s IH]; intros n r Hn;
    cbn [parseUintLoop allChars digitsVal].
  - intros [= <-]. auto.
  - unfold isDigitOf.
    destruct (digitValue c) as [d |] eqn:Hd; [| discriminate].
    pose proof (digitValue_nonneg c d Hd) as Hd0.
    destruct (Z.geb_spec d b) as [| Hdb]; [discriminate |].
    destruct (Z.geb_spec n (MaxUint64 / b + 1)) as [| Hcut]; [discriminate |].
    assert (Hnb : n * b <= MaxUint64).
    { pose proof (Z.mul_div_le MaxUint64 b ltac:(lia)).
      unfold MaxUint64 in *. nia. }
    unfold uint64. unfold MaxUint64 in *.
    rewrite (Z.mod_small (n * b)) by nia.
    destruct (Z.ltb_spec (n * b + d) (2 ^ 64)) as [Hfit | Hwrap].
    + rewrite (Z.mod_small (n * b + d)) by nia.
      destruct ((n * b + d <? n * b)
                || (n * b + d >? 18446744073709551615)) eqn:E;
        [discriminate |].
      apply orb_false_elim in E. destruct E as [_ E].
      intros H. apply IH in H; [| lia].
      destruct (Z.ltb_spec d b); [| lia]. cbn [andb]. exact H.
    + assert (Hm : (n * b + d) mod 2 ^ 64 = n * b + d - 2 ^ 64).
      { symmetry. apply (Z.mod_unique _ _ 1); lia. }
      rewrite Hm.
      destruct (Z.ltb_spec (n * b + d - 2 ^ 64) (n * b)); [| lia].
      discriminate.
Qed.

Lemma ParseInt_success (b : Z) (s : string) (v : Z) :
  2 <= b <= 36 ->
  ParseInt s b = inr v ->
  unsignedBody s <> EmptyString /\
  allChars (isDigitOf b) (unsignedBody s) = true /\
  (hasMinus s = false ->
   v = digitsVal b (unsignedBody s) 0 /\ 0 <= v <= MaxInt64).
Proof.
  intros Hb. unfold ParseInt, unsignedBody, hasMinus.
  destruct s as [| c0 rest]; [discriminate |].
  set (body := if Ascii.eqb c0 "+" || Ascii.eqb c0 "-"
               then rest else String c0 rest).
  unfold ParseUint.
  destruct body as [| c1 body'] eqn:Hbody; [discriminate |].
  rewrite <- Hbody.
  destruct (parseUintLoop b (MaxUint64 / b + 1) MaxUint64 body 0)
    as [e | un] eqn:Hloop; [discriminate |].
  apply parseUintLoop_success in Hloop; [| lia | unfold MaxUint64; lia].
  destruct Hloop as (Hall & -> & Hr).
  intros H. split; [rewrite Hbody; discriminate |]. split; [exact Hall |].
  intros Hminus. rewrite Hminus in H. cbn [negb andb] in H.
  destruct (Z.geb_spec (digitsVal b body 0) (2 ^ 63)) as [| Hlt];
    [discriminate |].
  rewrite wrap64_small in H by lia. injection H as <-.
  unfold MaxInt64. split; [reflexivity | lia].
Qed.

(** The bytes that [DecodeString] returns are bytes, and it accepts only
    characters of the alphabet, carriage returns and line feeds. *)
Lemma quantumBytes_bytes (dbuf : list Z) :
  Forall isByte (quantumBytes dbuf).
Proof.
  unfold quantumBytes, isByte.
  destruct dbuf as [| d0 [| d1 [| d2 [| d3 [| d4 dbuf]]]]];
    repeat constructor; apply Z.mod_pos_bound; lia.
Qed.

Lemma decodeQuanta_success (s : string) :
  forall dbuf dst out,
    Forall isByte dst ->
    decodeQuanta s dbuf dst = inr out ->
    allChars (fun c => occurs c encodeURL || isNewline c) s = true /\
    Forall isByte out.
Proof.
  induction s as [| c s IH]; intros dbuf dst out Hdst;
    cbn [decodeQuanta allChars].
  - destruct dbuf as [| d0 [| d1 dbuf]]; [| discriminate |].
    + intros [= <-]. auto.
    + pose proof (quantumBytes_bytes (d0 :: d1 :: dbuf)) as Hq.
      revert Hq. generalize (quantumBytes (d0 :: d1 :: dbuf)).
      intros q Hq [= <-]. split; [reflexivity |].
      apply Forall_app. split; [exact Hdst | exact Hq].
  - destruct (tableGet decodeURLMap c =? 255) eqn:E.
    + fold (isNewline c). destruct (isNewline c) eqn:En; [| discriminate].
      intros H. apply IH in H; [| exact Hdst].
      rewrite orb_true_r. exact H.
    + assert (Hocc : occurs c encodeURL = true)
        by (apply decodeURLMap_alphabet; rewrite E; reflexivity).
      rewrite Hocc. cbn [orb andb].
      destruct dbuf as [| d0 [| d1 [| d2 [| d3 dbuf]]]]; intros H;
        apply IH in H; auto.
      pose proof (quantumBytes_bytes [d0; d1; d2; tableGet decodeURLMap c])
        as Hq.
      revert Hq. generalize (quantumBytes [d0; d1; d2; tableGet decodeURLMap c]).
      intros q Hq. apply Forall_app. split; [exact Hdst | exact Hq].
Qed.

Lemma Uint64_nonneg (b : list Z) : Forall isByte b -> 0 <= Uint64 b.
Proof.
  unfold Uint64, isByte. intros H.
  destruct b as [| b0 [| b1 [| b2 [| b3 [| b4 [| b5 [| b6 [| b7 [| b8 b]]]]]]]]];
    try lia.
  repeat match goal with
         | H : Forall _ (_ :: _) |- _ => inversion H; clear H; subst
         end.
  repeat (apply Z.lor_nonneg; split);
    try (apply Z.shiftl_nonneg); lia.
Qed.

Lemma ParseBase64_success (s : string) (v : Z) :
  ParseBase64 s = inr v ->
  allChars (fun c => occurs c encodeURL || isNewline c) s = true /\
  (exists b, DecodeString s = inr b /\ List.length b = 8%nat /\
             v = Uint64 b) /\
  0 <= v <= MaxInt64.
Proof.
  unfold ParseBase64, DecodeString.
  destruct (decodeQuanta s [] []) as [e | b] eqn:Hd; [discriminate |].
  apply decodeQuanta_success in Hd; [| constructor].
  destruct Hd as [Hall Hb].
  destruct (Nat.eqb_spec (List.length b) 8) as [Hlen |]; [| discriminate].
  cbn [negb].
  destruct (Z.gtb_spec (Uint64 b) MaxInt64) as [| Hmax]; [discriminate |].
  pose proof (Uint64_nonneg b Hb) as H0.
  unfold MaxInt64 in *. rewrite wrap64_small by lia. intros [= <-].
  split; [exact Hall |]. split; [| lia].
  exists b. auto.
Qed.

(** *** Boundary rejection *)

(** C8, as stated, fails: the decimal decoder accepts a leading sign and
    returns a negative identifier for a minus; so does the binary decoder;
    and the base-64 decoder of the library skips line feeds and carriage
    returns.  [UnmarshalJSON], next to them, does reject the negative
    value. *)
Lemma sign_and_newline_accepted :
  ParseString "-5" = inr (-5) /\
  ParseString "+7" = inr 7 /\
  ParseBase2 "-101" = inr (-5) /\
  ParseBase64 (String "010" "AAAAAAAAAAE") = inr 1 /\
  UnmarshalJSON "-5" = inl ErrNegativeJSON.
Proof. vm_compute. repeat split. Qed.

(** C8, amended: a decoder returns a value only for a well-formed string.
    Base 32 and base 58: between 1 and 13 (11) characters, all of the
    alphabet, spelling a value below 2^63.  Decimal and binary: after at
    most one leading sign, a non-empty string of digits of the base, which,
    when the sign is not a minus, spells the value returned, below 2^63.
    Base 64: only characters of the alphabet, line feeds and carriage
    returns, decoding to exactly 8 bytes whose big-endian value is below
    2^63.  Every other string is an error. *)
Theorem decode_accepts (f : Format) (s : string) (v : ID) :
  Decode f s = inr v -> accepted f s v.
Proof.
  destruct f; cbn [Decode accepted]; intros H.
  - apply (ParseInt_success 10) in H; [| lia].
    unfold MaxInt64 in H. destruct H as (H1 & H2 & H3).
    split; [exact H1 |]. split; [exact H2 |].
    intros Hm. destruct (H3 Hm). split; [assumption | lia].
  - apply (ParseInt_success 2) in H; [| lia].
    unfold MaxInt64 in H. destruct H as (H1 & H2 & H3).
    split; [exact H1 |]. split; [exact H2 |].
    intros Hm. destruct (H3 Hm). split; [assumption | lia].
  - apply ParseBase32_success in H. unfold MaxInt64 in H.
    destruct H as (H1 & H2 & H3 & H4). repeat split; auto; lia.
  - apply ParseBase58_success in H. unfold MaxInt64 in H.
    destruct H as (H1 & H2 & H3 & H4). repeat split; auto; lia.
  - apply ParseBase64_success in H. unfold MaxInt64 in H.
    destruct H as (H1 & H2 & H3). repeat split; auto; lia.
Qed.

Lemma decode_accepts_witness : accepted Base58Format "2z" 91.
Proof. apply (decode_accepts Base58Format "2z" 91). reflexivity. Defined.

End CodecFacts.

(** ** More on the bit layout *)

Module LayoutFacts.

Lemma accessors_range (id : ID) :
  0 <= Type_ id <= 1023 /\
  0 <= timestampMillisNodeEpoch id <= 2 ^ 41 - 1 /\
  0 <= Node_ id <= 3 /\
  0 <= Seq id <= 1023.
Proof.
  pose proof (Z.mod_pos_bound (id / 2 ^ 53) (2 ^ 10) ltac:(lia)) as Hty.
  pose proof (Z.mod_pos_bound (id / 2 ^ 12) (2 ^ 41) ltac:(lia)) as Hts.
  pose proof (Z.mod_pos_bound (id / 2 ^ 10) (2 ^ 2) ltac:(lia)) as Hnd.
  pose proof (Z.mod_pos_bound id (2 ^ 10) ltac:(lia)) as Hsq.
  rewrite <- Type_spec in Hty. rewrite <- timestampMillisNodeEpoch_spec in Hts.
  rewrite <- Node_spec in Hnd. rewrite <- Seq_spec in Hsq.
  lia.
Qed.

(** The accessors are total: whatever the identifier, each field read from
    it lies within its declared width, [Time] lies within the 41-bit window
    that starts at [Epoch], and [Components] returns what the four accessors
    return. *)
Theorem fields_in_range (id : ID) :
  0 <= Type_ id <= 1023 /\
  0 <= timestampMillisNodeEpoch id <= 2 ^ 41 - 1 /\
  0 <= Node_ id <= 3 /\
  0 <= Seq id <= 1023 /\
  Epoch <= Time id <= Epoch + (2 ^ 41 - 1) /\
  Components id = (Type_ id, Time id, Node_ id, Seq id).
Proof.
  pose proof (accessors_range id) as (Hty & Hts & Hnd & Hsq).
  assert (Htime : Time id = timestampMillisNodeEpoch id + Epoch).
  { unfold Time, add64, Epoch. apply wrap64_small. lia. }
  repeat split; try lia.
  all: try (rewrite Htime; unfold Epoch; lia).
  unfold Components. fold (Time id).
  rewrite Z.mod_small by lia. reflexivity.
Qed.

(** Packing what the accessors read from a non-negative 63-bit identifier
    gives the identifier back. *)
Theorem packID_fields (id : ID) :
  0 <= id <= MaxInt64 ->
  packID (Type_ id) (timestampMillisNodeEpoch id) (Node_ id) (Seq id) = id.
Proof.
  unfold MaxInt64. intros Hid.
  pose proof (accessors_range id) as (Hty & Hts & Hnd & Hsq).
  rewrite packID_sum by (apply validFields_bounds; lia).
  rewrite Type_spec, timestampMillisNodeEpoch_spec, Node_spec, Seq_spec.
  Z.div_mod_to_equations. lia.
Qed.

Lemma packID_fields_witness :
  packID (Type_ 1234567890123456789)
         (timestampMillisNodeEpoch 1234567890123456789)
         (Node_ 1234567890123456789) (Seq 1234567890123456789)
  = 1234567890123456789.
Proof. apply (packID_fields 1234567890123456789). unfold MaxInt64. lia. Defined.

(** Identifiers built from fields that fit their widths compare as the
    tuples (category, time, node, sequence) compare, the category first. *)
Theorem packID_order (c1 t1 n1 s1 c2 t2 n2 s2 : Z) :
  validFields c1 t1 n1 s1 -> validFields c2 t2 n2 s2 ->
  (packID c1 t1 n1 s1 < packID c2 t2 n2 s2 <->
   c1 < c2 \/
   (c1 = c2 /\
    (t1 < t2 \/ (t1 = t2 /\ (n1 < n2 \/ (n1 = n2 /\ s1 < s2)))))).
Proof.
  intros H1 H2. rewrite !packID_sum by assumption.
  apply (proj1 (validFields_bounds _ _ _ _)) in H1.
  apply (proj1 (validFields_bounds _ _ _ _)) in H2. split.
  - intros Hlt.
    destruct (Z.lt_trichotomy c1 c2) as [| [-> |]];
      [left; assumption | | lia].
    right. split; [reflexivity |].
    destruct (Z.lt_trichotomy t1 t2) as [| [-> |]];
      [left; assumption | | lia].
    right. split; [reflexivity |].
    destruct (Z.lt_trichotomy n1 n2) as [| [-> |]];
      [left; assumption | | lia].
    right. split; [reflexivity | lia].
  - lia.
Qed.

Lemma packID_order_witness :
  packID 1 7 3 1023 < packID 1 8 0 0 <->
  1 < 1 \/ (1 = 1 /\ (7 < 8 \/ (7 = 8 /\ (3 < 0 \/ (3 = 0 /\ 1023 < 0))))).
Proof.
  apply (packID_order 1 7 3 1023 1 8 0 0);
    apply validFields_bounds; lia.
Defined.

(** Fields that fit their widths pack to a non-negative 63-bit identifier,
    and two identifiers so built are equal only if the fields are. *)
Theorem packID_injective (c1 t1 n1 s1 c2 t2 n2 s2 : Z) :
  validFields c1 t1 n1 s1 -> validFields c2 t2 n2 s2 ->
  0 <= packID c1 t1 n1 s1 <= MaxInt64 /\
  (packID c1 t1 n1 s1 = packID c2 t2 n2 s2 ->
   c1 = c2 /\ t1 = t2 /\ n1 = n2 /\ s1 = s2).
Proof.
  intros H1 H2. rewrite !packID_sum by assumption.
  apply (proj1 (validFields_bounds _ _ _ _)) in H1.
  apply (proj1 (validFields_bounds _ _ _ _)) in H2.
  unfold MaxInt64. split; [lia |]. intros Heq.
  assert (c1 = c2) as -> by lia. assert (t1 = t2) as -> by lia.
  assert (n1 = n2) as -> by lia. repeat split; lia.
Qed.

Lemma packID_injective_witness :
  0 <= packID 2 5 1 9 <= MaxInt64 /\
  (packID 2 5 1 9 = packID 2 5 1 9 -> 2 = 2 /\ 5 = 5 /\ 1 = 1 /\ 9 = 9).
Proof.
  apply (packID_injective 2 5 1 9 2 5 1 9); apply validFields_bounds; lia.
Defined.

End LayoutFacts.

(** ** More on the generator *)

Module GeneratorMore.
Import Generator GeneratorSpec GeneratorSpecMore GeneratorFacts Service.

(** *** The three ways through [Generate] *)





(** *** Every way through a call *)

Lemma land_SeqMax_range (x : Z) : 0 <= Z.land x SeqMax <= SeqMax.
Proof.
  change SeqMax with (Z.ones 10). rewrite Z.land_ones by lia.
  pose proof (Z.mod_pos_bound x (2 ^ 10) ltac:(lia)).
  change (Z.ones 10) with 1023. lia.
Qed.

Lemma stepped_set_seq_land (n m : Node) (x : Z) :
  node m = node n -> lastID m = lastID n ->
  strictMonotonicityChecks m = strictMonotonicityChecks n ->
  quietMode m = quietMode n ->
  stepped n (set_seq (Z.land x SeqMax) m).
Proof.
  intros. unfold stepped. cbn [node lastID strictMonotonicityChecks
                                quietMode seq set_seq].
  repeat split; auto; apply land_SeqMax_range.
Qed.

Lemma stepped_set_seq_0 (n : Node) : stepped n (set_seq 0 n).
Proof.
  unfold stepped. cbn [node lastID strictMonotonicityChecks quietMode seq
                       set_seq].
  repeat split; auto; [lia | change SeqMax with 1023; lia].
Qed.

Lemma Generate_paths (clk : Clock) (c : Z) (n n' : Node) (r : Outcome) :
  Generate clk c n = (n', r) ->
  (TypeMax < c /\ n' = n /\ r = Fail ErrInvalIDType) \/
  (c <= TypeMax /\ r = Fail (ErrClockNotAdvancing ClockStuck)) \/
  (c <= TypeMax /\
   exists now m, generateInternal c now m = (n', r) /\ stepped n m).
Proof.
  unfold Generate. intros H.
  destruct (Z.gtb_spec c TypeMax) as [Hgt | Hle].
  { injection H as <- <-. left. auto. }
  right.
  destruct (clk 0%nat <? time n) eqn:Eback.
  - destruct (clk 0%nat <? sub64 (time n) 1);
      cbn [time seq set_clockWarningCount set_seq] in H;
      rewrite Z.eqb_refl in H.
    all: destruct (Z.land _ SeqMax =? 0).
    all: repeat split_if H.
    all: try (injection H as <- <-; left; auto; fail).
    all: right; split; [exact Hle |]; do 2 eexists; split; [exact H |].
    all: try (apply stepped_set_seq_land; reflexivity).
  - destruct (clk 0%nat =? time n).
    + cbn [time seq set_seq] in H.
      destruct (Z.land _ SeqMax =? 0).
      all: repeat split_if H.
      all: try (injection H as <- <-; left; auto; fail).
      all: right; split; [exact Hle |]; do 2 eexists; split; [exact H |].
      all: apply stepped_set_seq_land; reflexivity.
    + right. split; [exact Hle |]. do 2 eexists. split; [exact H |].
      apply stepped_set_seq_0.
Qed.

Lemma GenerateWithTimestamp_paths (c timestamp : Z) (n n' : Node)
      (r : Outcome) :
  GenerateWithTimestamp c timestamp n = (n', r) ->
  (TypeMax < c /\ n' = n /\ r = Fail ErrInvalIDType) \/
  (c <= TypeMax /\ r = Fail (ErrClockNotAdvancing SequenceExhausted)) \/
  (c <= TypeMax /\
   exists m, generateInternal c (sinceEpoch timestamp) m = (n', r) /\
             stepped n m).
Proof.
  unfold GenerateWithTimestamp. intros H.
  destruct (Z.gtb_spec c TypeMax) as [Hgt | Hle].
  { injection H as <- <-. left. auto. }
  right.
  destruct (sinceEpoch timestamp =? time n).
  - cbn [time seq set_seq] in H.
    destruct (Z.land _ SeqMax =? 0).
    + injection H as <- <-. left. auto.
    + right. split; [exact Hle |]. eexists. split; [exact H |].
      apply stepped_set_seq_land; reflexivity.
  - right. split; [exact Hle |]. eexists. split; [exact H |].
    apply stepped_set_seq_0.
Qed.

(** Every call that gets past the category check and its sequence step
    ends in [generateInternal] on a stepped node. *)
Lemma call_paths (c : Call) (n n' : Node) (r : Outcome) :
  call c n = (n', r) ->
  (TypeMax < categoryOf c /\ n' = n /\ r = Fail ErrInvalIDType) \/
  (categoryOf c <= TypeMax /\
   exists why, r = Fail (ErrClockNotAdvancing why)) \/
  (categoryOf c <= TypeMax /\
   exists now m,
     generateInternal (categoryOf c) now m = (n', r) /\ stepped n m).
Proof.
  destruct c as [clk idType | idType timestamp]; cbn [call categoryOf];
    intros H.
  - apply Generate_paths in H.
    destruct H as [H | [[Hc ->] | [Hc (now & m & H)]]]; eauto 8.
  - apply GenerateWithTimestamp_paths in H.
    destruct H as [H | [[Hc ->] | [Hc (m & H)]]]; eauto 8.
Qed.

(** *** Construction *)

(** [NewNode] refuses exactly the node ids outside 0..3, with
    ErrInvalidNodeID; for an id in range it returns a node with that id, no
    identifier generated yet, time and sequence 0; without options the
    strict check is on and quiet mode is off, and the last option given for
    a flag decides it. *)
Theorem NewNode_validates (nodeID : Z) (options : list NodeOption) :
  (NewNode nodeID options = inl ErrInvalidNodeID <->
   nodeID < 0 \/ 3 < nodeID) /\
  (0 <= nodeID <= 3 ->
   NewNode nodeID [] = inr (mkNode 0 nodeID 0 0 0 true false) /\
   (Forall packageOption options ->
    exists n0,
      NewNode nodeID options = inr n0 /\
      node n0 = nodeID /\ LastID n0 = 0 /\ time n0 = 0 /\ seq n0 = 0 /\
      (forall b n1,
          NewNode nodeID (options ++ [WithStrictMonotonicityCheck b])
          = inr n1 ->
          strictMonotonicityChecks n1 = b /\ quietMode n1 = quietMode n0) /\
      (forall b n1,
          NewNode nodeID (options ++ [WithQuietMode b]) = inr n1 ->
          quietMode n1 = b /\
          strictMonotonicityChecks n1 = strictMonotonicityChecks n0))).
Proof.
  split.
  - unfold NewNode. change NodeMax with 3.
    destruct (Z.ltb_spec nodeID 0), (Z.gtb_spec nodeID 3); cbn [orb];
      split; intros Hx; try reflexivity; try lia; discriminate.
  - intros Hid.
    assert (Hok : (nodeID <? 0) || (nodeID >? NodeMax) = false).
    { change NodeMax with 3.
      destruct (Z.ltb_spec nodeID 0), (Z.gtb_spec nodeID 3); cbn [orb];
        try reflexivity; lia. }
    split; [unfold NewNode; rewrite Hok; reflexivity |].
    intros Hopts.
    destruct (NewNode nodeID options) as [e | n0] eqn:Hnew;
      [unfold NewNode in Hnew; rewrite Hok in Hnew; discriminate |].
    exists n0. split; [reflexivity |].
    destruct (NewNode_fresh _ _ _ Hopts Hnew) as (Hl & Ht & Hs & Hn & _).
    unfold LastID. repeat split; auto.
    all: unfold NewNode in *; rewrite Hok in *.
    all: injection Hnew as <-.
    all: match goal with H : inr _ = inr _ |- _ => injection H as <- end.
    all: rewrite fold_left_app; reflexivity.
Qed.

Lemma NewNode_validates_witness :
  NewNode 2 [] = inr (mkNode 0 2 0 0 0 true false) /\
  (Forall packageOption [WithQuietMode true] ->
   exists n0,
     NewNode 2 [WithQuietMode true] = inr n0 /\
     node n0 = 2 /\ LastID n0 = 0 /\ time n0 = 0 /\ seq n0 = 0 /\
     (forall b n1,
         NewNode 2 ([WithQuietMode true] ++ [WithStrictMonotonicityCheck b])
         = inr n1 ->
         strictMonotonicityChecks n1 = b /\ quietMode n1 = quietMode n0) /\
     (forall b n1,
         NewNode 2 ([WithQuietMode true] ++ [WithQuietMode b]) = inr n1 ->
         quietMode n1 = b /\
         strictMonotonicityChecks n1 = strictMonotonicityChecks n0)).
Proof.
  apply (proj2 (NewNode_validates 2 [WithQuietMode true])). lia.
Defined.

(** *** What a call can return *)

(** The errors of the two entry points.  A category above 1023 is refused
    with ErrInvalIDType before the node is touched, and only then.
    Otherwise a call fails only with the timestamp overflow, the
    monotonicity violation, or ErrClockNotAdvancing: as "clock stuck" from
    [Generate] and as "sequence exhausted" from [GenerateWithTimestamp],
    never the other way round. *)
Theorem call_errors (c : Call) (n n' : Node) (e : GenError) :
  call c n = (n', Fail e) ->
  (e = ErrInvalIDType /\ 1023 < categoryOf c /\ n' = n) \/
  (categoryOf c <= 1023 /\
   (e = ErrTimestampOverflow \/ e = ErrMonotonicityViolation \/
    e = ErrClockNotAdvancing
          match c with
          | CallGenerate _ _ => ClockStuck
          | CallGenerateWithTimestamp _ _ => SequenceExhausted
          end)).
Proof.
  change 1023 with TypeMax.
  assert (Hgi : forall now m,
             generateInternal (categoryOf c) now m = (n', Fail e) ->
             e = ErrTimestampOverflow \/ e = ErrMonotonicityViolation).
  { intros now m H. apply generateInternal_frame in H.
    destruct H as (_ & _ & _ & _ & _ & _ & [(-> & _) | (-> & _)]); auto. }
  destruct c as [clk idType | idType timestamp]; cbn [call categoryOf];
    intros H.
  - apply Generate_paths in H.
    destruct H as [(Hc & -> & [= ->])
                  | [(Hc & [= ->]) | (Hc & now & m & H & _)]];
      [left; auto | right; auto |].
    right. split; [exact Hc |]. destruct (Hgi _ _ H); auto.
  - apply GenerateWithTimestamp_paths in H.
    destruct H as [(Hc & -> & [= ->])
                  | [(Hc & [= ->]) | (Hc & m & H & _)]];
      [left; auto | right; auto |].
    right. split; [exact Hc |]. destruct (Hgi _ _ H); auto.
Qed.

Lemma call_errors_witness :
  let n := mkNode 4196351 0 1 1023 0 true false in
  (ErrClockNotAdvancing SequenceExhausted = ErrInvalIDType /\
   1023 < 1 /\ set_seq 0 n = n) \/
  (1 <= 1023 /\
   (ErrClockNotAdvancing SequenceExhausted = ErrTimestampOverflow \/
    ErrClockNotAdvancing SequenceExhausted = ErrMonotonicityViolation \/
    ErrClockNotAdvancing SequenceExhausted
    = ErrClockNotAdvancing SequenceExhausted)).
Proof.
  apply (call_errors (CallGenerateWithTimestamp 1 (Epoch + 1))
                     (mkNode 4196351 0 1 1023 0 true false)).
  reflexivity.
Defined.

(** With the strict check off no call ever fails with
    MonotonicityViolation, whatever the state and the calls before it. *)
Theorem no_violation_when_not_strict (n : Node) (cs : list Call) :
  strictMonotonicityChecks n = false ->
  ~ In (Fail ErrMonotonicityViolation) (snd (run cs n)).
Proof.
  revert n. induction cs as [| c cs IH]; intros n Hs; cbn [run].
  - simpl. auto.
  - destruct (call c n) as [n1 r] eqn:Hc.
    destruct (run cs n1) as [n2 rs] eqn:Hr. cbn [snd].
    pose proof (call_framed _ _ _ _ Hc) as (_ & Hs1 & _).
    rewrite Hs in Hs1. specialize (IH n1 Hs1). rewrite Hr in IH.
    intros [-> | Hin]; [| exact (IH Hin)].
    apply call_paths in Hc.
    destruct Hc as [(_ & _ & [=]) | [(_ & why & [=]) | (_ & now & m & H & Hm)]].
    apply generateInternal_frame in H.
    destruct H as (_ & _ & _ & _ & _ & _ & [([=] & _) | (_ & _ & Hstrict & _)]).
    destruct Hm as (_ & _ & Hsm & _). congruence.
Qed.

Lemma no_violation_when_not_strict_witness :
  ~ In (Fail ErrMonotonicityViolation)
       (snd (run [CallGenerate (fun _ => 5) 2; CallGenerate (fun _ => 6) 1]
                 (mkNode 0 0 0 0 0 false false))).
Proof.
  apply (no_violation_when_not_strict (mkNode 0 0 0 0 0 false false)).
  reflexivity.
Defined.

Lemma call_success (c : Call) (n n' : Node) (id : ID) :
  call c n = (n', Ok id) ->
  id = packID (categoryOf c) (time n') (node n') (seq n') /\
  categoryOf c <= TypeMax /\ time n' <= TimestampMax /\
  0 <= seq n' <= SeqMax /\ node n' = node n /\ lastID n' = id.
Proof.
  intros H. apply call_paths in H.
  destruct H as [(_ & _ & [=]) | [(_ & why & [=]) | (Hc & now & m & H & Hm)]].
  apply generateInternal_frame in H.
  destruct H as (Hn & Hs & Ht & _ & _ & -> & Hnow & Hl & _).
  destruct Hm as (Hnm & _ & _ & _ & Hsm).
  rewrite Hn, Hs, Ht. repeat split; auto; try apply Hsm.
Qed.

(** An identifier a call returns is the packing of the category passed
    with the time, node id and sequence the node holds after the call; the
    category is at most 1023, the time at most 2^41 - 1, the sequence within
    0..1023, and the node id is the one the node had. *)
Theorem success_shape (c : Call) (n n' : Node) (id : ID) :
  call c n = (n', Ok id) ->
  id = packID (categoryOf c) (time n') (node n') (seq n') /\
  categoryOf c <= 1023 /\ time n' <= 2 ^ 41 - 1 /\
  0 <= seq n' <= 1023 /\ node n' = node n.
Proof.
  intros H. apply call_success in H.
  destruct H as (H1 & H2 & H3 & H4 & H5 & _). auto.
Qed.

Lemma success_shape_witness :
  let n := mkNode 0 2 0 0 0 true false in
  let n' := mkNode 30720 2 7 0 0 true false in
  30720 = packID 0 (time n') (node n') (seq n') /\
  0 <= 1023 /\ time n' <= 2 ^ 41 - 1 /\
  0 <= seq n' <= 1023 /\ node n' = node n.
Proof.
  apply (success_shape (CallGenerate (fun _ => 7) 0)
                       (mkNode 0 2 0 0 0 true false)).
  reflexivity.
Defined.

(** When the node id is within 0..3, the category is not negative and the
    time recorded is not before the epoch, the accessors read from a returned
    identifier the category passed, the node id, the recorded time (as an
    offset, and with [Epoch] added by [Time] and [Components]) and the
    recorded sequence; the identifier is a non-negative 63-bit value. *)
Theorem success_fields (c : Call) (n n' : Node) (id : ID) :
  call c n = (n', Ok id) ->
  0 <= categoryOf c -> 0 <= node n <= 3 -> 0 <= time n' ->
  Type_ id = categoryOf c /\ Node_ id = node n /\
  timestampMillisNodeEpoch id = time n' /\ Time id = time n' + Epoch /\
  Seq id = seq n' /\ 0 <= id <= MaxInt64 /\
  Components id = (categoryOf c, time n' + Epoch, node n, seq n').
Proof.
  intros H Hc Hn Ht. apply call_success in H.
  destruct H as (-> & Hc' & Ht' & Hs & Hnode & _). rewrite Hnode.
  assert (Hv : validFields (categoryOf c) (time n') (node n) (seq n'))
    by (unfold validFields; change NodeMax with 3; lia).
  pose proof (unpack_sum _ _ _ _ Hv) as (Hty & Hts & Hnd).
  pose proof (Seq_packID _ _ _ _ Hv) as Hsq.
  pose proof (packID_range _ _ _ _ Hv) as Hr.
  rewrite <- (packID_sum _ _ _ _ Hv) in Hty, Hts, Hnd.
  rewrite <- Type_spec in Hty.
  rewrite <- timestampMillisNodeEpoch_spec in Hts.
  rewrite <- Node_spec in Hnd.
  assert (Hadd : add64 (time n') Epoch = time n' + Epoch).
  { unfold add64. apply wrap64_small.
    revert Ht'. change TimestampMax with (2 ^ 41 - 1). unfold Epoch. lia. }
  split; [exact Hty |]. split; [exact Hnd |]. split; [exact Hts |].
  split; [unfold Time; rewrite Hts; exact Hadd |].
  split; [exact Hsq |]. split; [exact Hr |].
  unfold Components.
  rewrite Hty, Hts, Hadd, Hnd, Hsq, Z.mod_small; [reflexivity |].
  revert Hc'. change TypeMax with 1023. lia.
Qed.

Lemma success_fields_witness :
  let n' := mkNode 30720 2 7 0 0 true false in
  Type_ 30720 = 0 /\ Node_ 30720 = 2 /\
  timestampMillisNodeEpoch 30720 = time n' /\ Time 30720 = time n' + Epoch /\
  Seq 30720 = seq n' /\ 0 <= 30720 <= MaxInt64 /\
  Components 30720 = (0, time n' + Epoch, 2, seq n').
Proof.
  apply (success_fields (CallGenerate (fun _ => 7) 0)
                        (mkNode 0 2 0 0 0 true false)
                        (mkNode 30720 2 7 0 0 true false) 30720).
  - reflexivity.
  - simpl; lia.
  - simpl; lia.
  - simpl; lia.
Defined.

(** [LastID] after any run of calls is the identifier of the last call
    that succeeded, or what it was before the run when none did; failed
    calls leave it alone, with or without the strict check. *)
Theorem LastID_after_run (cs : list Call) (n : Node) :
  LastID (fst (run cs n)) = last (successes (snd (run cs n))) (LastID n).
Proof.
  revert n. induction cs as [| c cs IH]; intros n; cbn [run]; [reflexivity |].
  destruct (call c n) as [n1 r] eqn:Hc.
  specialize (IH n1). destruct (run cs n1) as [n2 rs]. cbn [fst snd] in *.
  apply call_framed in Hc. destruct Hc as (_ & _ & _ & Hl).
  destruct r as [id | e]; cbn [successes].
  - destruct Hl as [Hl _]. unfold LastID in *. rewrite IH, Hl.
    destruct (successes rs) as [| i l]; [reflexivity |].
    change (last (i :: l) id = last (i :: l) (lastID n)).
    apply last_default_irrelevant.
  - unfold LastID in *. rewrite IH, Hl. reflexivity.
Qed.

(** *** The two entry points agree *)

(** When the clock reading is not behind the node's time and the sequence
    does not wrap, [Generate] does exactly what [GenerateWithTimestamp]
    does with the reading as its timestamp. *)
Theorem Generate_as_GenerateWithTimestamp (clk : Clock) (c : Z) (n : Node) :
  0 <= seq n <= 1023 ->
  time n < clk 0%nat \/ (clk 0%nat = time n /\ seq n < 1023) ->
  Generate clk c n = GenerateWithTimestamp c (clk 0%nat + Epoch) n.
Proof.
  change 1023 with SeqMax. intros Hs Hclk.
  unfold Generate, GenerateWithTimestamp, sinceEpoch.
  replace (clk 0%nat + Epoch - Epoch) with (clk 0%nat) by lia.
  destruct (c >? TypeMax); [reflexivity |].
  destruct (Z.ltb_spec (clk 0%nat) (time n)) as [? | _]; [lia |].
  destruct (Z.eqb_spec (clk 0%nat) (time n)) as [Heq | _]; [| reflexivity].
  cbn [time seq set_seq].
  rewrite (seq_step (seq n) Hs).
  destruct (Z.eqb_spec (seq n) SeqMax); [lia |].
  destruct (Z.eqb_spec (seq n + 1) 0); [lia | reflexivity].
Qed.

Lemma Generate_as_GenerateWithTimestamp_witness :
  Generate (fun _ => 9) 3 (mkNode 0 1 0 0 0 true false)
  = GenerateWithTimestamp 3 (9 + Epoch) (mkNode 0 1 0 0 0 true false).
Proof.
  apply (Generate_as_GenerateWithTimestamp
           (fun _ => 9) 3 (mkNode 0 1 0 0 0 true false)).
  - simpl; lia.
  - left. simpl. lia.
Defined.

(** *** Steps from a state in which all calls succeeded *)

Lemma generateInternal_ok_eq (c now : Z) (m n' : Node) (id : ID) :
  generateInternal c now m = (n', Ok id) ->
  n' = set_lastID id (set_time now m).
Proof.
  unfold generateInternal.
  destruct (now >? TimestampMax); [discriminate |].
  destruct (strictMonotonicityChecks (set_time now m)
            && (packID c now (node (set_time now m)) (seq (set_time now m))
                <=? lastID (set_time now m))); [discriminate |].
  intros [= <- <-]. reflexivity.
Qed.

(** From a synced state, at a later point of the (time, sequence) order and
    within the 41-bit range, [generateInternal] succeeds, strict or not, with
    an identifier above [lastID]. *)
Lemma generateInternal_synced_ok (c now : Z) (n m : Node) :
  synced c n -> 0 <= c <= TypeMax ->
  node m = node n -> lastID m = lastID n ->
  (now = time n /\ seq n < SeqMax /\ seq m = seq n + 1) \/
  (time n < now /\ seq m = 0) ->
  now <= TimestampMax ->
  let id := packID c now (node n) (seq m) in
  generateInternal c now m = (set_lastID id (set_time now m), Ok id) /\
  lastID n < id /\ synced c (set_lastID id (set_time now m)).
Proof.
  intros Hsync Hc Hnode Hlast Hpos Hnow id.
  destruct (generateInternal c now m) as [n' r] eqn:H.
  pose proof (generateInternal_synced c now n m n' r Hsync Hc Hnode Hlast
                                      Hpos H) as Hr.
  destruct r as [id' | e]; [| lia].
  destruct Hr as (Hs' & _ & _ & Hid & _). fold id in Hid. subst id'.
  pose proof (generateInternal_ok_eq _ _ _ _ _ H) as ->.
  split; [reflexivity |]. split; [| exact Hs'].
  pose proof (synced_ranges _ _ Hsync) as (Hsq & Htm).
  assert (Hv : validFields c now (node n) (seq m)).
  { destruct Hsync as (Hnd & _). unfold validFields.
    repeat split; try lia.
    all: revert Hsq; change SeqMax with 1023; intros; lia. }
  destruct Hsync as (Hnd & [(Hl & Ht & Hs) | (c' & Hc' & Hv' & Hl)]).
  - subst id. rewrite Hl, packID_sum by exact Hv.
    apply (proj1 (validFields_bounds _ _ _ _)) in Hv. lia.
  - subst id. rewrite Hl. apply packID_lt; auto. lia.
Qed.

(** *** Clock regression *)



(** *** Sequence rollover *)





(** *** Runs of [Generate], strict or not *)

Lemma Generate_synced_ok (clk : Clock) (c : Z) (n n' : Node) (id : ID) :
  synced c n -> 0 <= c <= TypeMax ->
  Generate clk c n = (n', Ok id) ->
  synced c n' /\ lastID n < id /\ lastID n' = id /\ time n <= time n' /\
  id = packID c (time n') (node n) (seq n') /\
  validFields c (time n') (node n) (seq n').
Proof.
  intros Hsync Hc H.
  pose proof (synced_ranges _ _ Hsync) as (Hsq & Htm).
  pose proof H as Hcases.
  apply Generate_cases in Hcases; [| lia | exact Hsq].
  destruct Hcases as [(now & m & Hg & Hnode & Hlast & _ & Hpos) | ([=] & _)].
  pose proof (generateInternal_frame _ _ _ _ _ Hg)
    as (_ & _ & _ & _ & _ & _ & Hnow & _).
  destruct (generateInternal_synced_ok c now n m Hsync Hc Hnode Hlast Hpos
                                       Hnow) as (Heq & Hlt & Hs').
  rewrite Heq in Hg. injection Hg as <- <-.
  cbn [lastID time seq node set_lastID set_time].
  split; [exact Hs' |]. split; [exact Hlt |]. split; [reflexivity |].
  split; [destruct Hpos as [(-> & _) | (? & _)]; lia |].
  split; [reflexivity |].
  destruct Hsync as (Hnd & _). unfold validFields.
  destruct Hpos as [(-> & Hlt1 & ->) | (Hlt1 & ->)]; repeat split; try lia.
  all: revert Hsq; change SeqMax with 1023; intros; lia.
Qed.

Lemma run_Generate_increasing (calls : list (Clock * Z)) :
  forall (c0 : Z) (n : Node),
    synced c0 n -> 0 <= c0 ->
    Forall (fun p => c0 <= snd p <= TypeMax) calls ->
    StronglySorted Z.le (map snd calls) ->
    let rs :=
      snd (run (map (fun p => CallGenerate (fst p) (snd p)) calls) n) in
    firstError rs = None ->
    StronglySorted Z.lt (successes rs) /\
    Forall (fun id => lastID n < id) (successes rs).
Proof.
  induction calls as [| [clk c] calls IH]; intros c0 n Hsync Hc0 Hall Hsort;
    cbn [map run fst snd].
  - intros _. split; constructor.
  - destruct (Generate clk c n) as [n1 r] eqn:Hg. cbn [call].
    rewrite Hg.
    inversion Hall as [| ? ? Hhd Htl]; subst. cbn [snd] in Hhd.
    inversion Hsort as [| ? ? Hsort' Hge]; subst.
    specialize (IH c n1).
    destruct (run (map (fun p => CallGenerate (fst p) (snd p)) calls) n1)
      as [n2 rs] eqn:Hr.
    cbn [snd] in *.
    destruct r as [id | e]; cbn [firstError successes]; [| discriminate].
    intros Hnone.
    apply Generate_synced_ok in Hg;
      [| eapply synced_mono; eauto; lia | lia].
    destruct Hg as (Hs1 & Hlt & Hl1 & _).
    destruct (IH Hs1 ltac:(lia)) as (Hsorted & Hgt); auto.
    { rewrite Forall_forall in *. intros p Hp. split.
      - apply Hge. apply in_map. exact Hp.
      - apply Htl. exact Hp. }
    rewrite Hl1 in Hgt. split.
    + constructor; assumption.
    + constructor; [exact Hlt |].
      eapply Forall_impl; [| exact Hgt]. cbn beta. intros; lia.
Qed.

(** With or without the strict check: on a freshly constructed node, when
    every call of a run of [Generate] calls with valid, never decreasing
    categories succeeds, the identifiers returned are positive and strictly
    increasing, hence all different. *)
Theorem Generate_run_increasing
        (nodeID : Z) (options : list NodeOption) (n0 : Node)
        (calls : list (Clock * Z)) :
  Forall packageOption options ->
  NewNode nodeID options = inr n0 ->
  Forall (fun p => 0 <= snd p <= 1023) calls ->
  StronglySorted Z.le (map snd calls) ->
  let rs :=
    snd (run (map (fun p => CallGenerate (fst p) (snd p)) calls) n0) in
  firstError rs = None ->
  StronglySorted Z.lt (successes rs) /\
  Forall (fun id => 0 < id) (successes rs) /\
  NoDup (successes rs).
Proof.
  intros Hopts Hnew Hall Hsort rs Hnone.
  destruct (fresh_synced _ _ _ 0 Hopts Hnew) as (Hsync & _).
  destruct (NewNode_fresh _ _ _ Hopts Hnew) as (Hl & _).
  destruct (run_Generate_increasing calls 0 n0 Hsync ltac:(lia) Hall Hsort
                                    Hnone) as (Hsorted & Hgt).
  fold rs in Hsorted, Hgt. rewrite Hl in Hgt.
  split; [exact Hsorted |]. split; [exact Hgt |].
  clear - Hsorted. induction Hsorted as [| id ids Hs IH Hall];
    constructor; auto.
  intros Hin. rewrite Forall_forall in Hall. specialize (Hall id Hin). lia.
Qed.

Lemma Generate_run_increasing_witness :
  let rs :=
    snd (run (map (fun p => CallGenerate (fst p) (snd p))
                  [(fun _ => 5, 1); (fun _ => 5, 1); (fun _ => 4, 2)])
             (mkNode 0 0 0 0 0 false false)) in
  StronglySorted Z.lt (successes rs) /\
  Forall (fun id => 0 < id) (successes rs) /\
  NoDup (successes rs).
Proof.
  apply (Generate_run_increasing
           0 [WithStrictMonotonicityCheck false]
           (mkNode 0 0 0 0 0 false false)
           [(fun _ => 5, 1); (fun _ => 5, 1); (fun _ => 4, 2)]).
  - repeat constructor.
  - reflexivity.
  - repeat constructor; simpl; lia.
  - repeat constructor; simpl; lia.
  - vm_compute. reflexivity.
Defined.

(** *** Timestamps before the epoch *)




(** *** The node id the service reports *)

(** The example service reports [LastID().Node()] as its node id.  On a
    freshly constructed node that is 0, whatever the node's id; once a
    [Generate] call with a valid category has succeeded it is the node's
    id. *)
Theorem reportedNodeID_after_Generate
        (nodeID : Z) (options : list NodeOption) (n0 n1 : Node)
        (clk : Clock) (c : Z) (id : ID) :
  Forall packageOption options ->
  NewNode nodeID options = inr n0 ->
  0 <= c <= 1023 ->
  Generate clk c n0 = (n1, Ok id) ->
  reportedNodeID n0 = 0 /\ reportedNodeID n1 = nodeID.
Proof.
  change 1023 with TypeMax. intros Hopts Hnew Hc Hg.
  destruct (fresh_synced _ _ _ c Hopts Hnew) as (Hsync & _ & _ & Hn).
  destruct (NewNode_fresh _ _ _ Hopts Hnew) as (Hl & _).
  unfold reportedNodeID, LastID. rewrite Hl. split; [reflexivity |].
  apply Generate_synced_ok in Hg; auto.
  destruct Hg as (_ & _ & -> & _ & -> & Hv).
  pose proof (unpack_sum _ _ _ _ Hv) as (_ & _ & Hnd).
  rewrite <- (packID_sum _ _ _ _ Hv), <- Node_spec in Hnd.
  rewrite Hnd. exact Hn.
Qed.

Lemma reportedNodeID_after_Generate_witness :
  reportedNodeID (mkNode 0 3 0 0 0 true false) = 0 /\
  reportedNodeID (mkNode 9007199254764544 3 5 0 0 true false) = 3.
Proof.
  apply (reportedNodeID_after_Generate
           3 [] (mkNode 0 3 0 0 0 true false)
           (mkNode 9007199254764544 3 5 0 0 true false)
           (fun _ => 5) 1 9007199254764544).
  - constructor.
  - reflexivity.
  - lia.
  - reflexivity.
Defined.

(** *** After a timestamp past the ceiling *)





(** *** [GenerateSimple] *)



End GeneratorMore.

(** ** More on the codecs *)

Module CodecMore.
Import Codec CodecSpec CodecSpecMore CodecFacts.

Lemma uint64_int64 (id : Z) :
  - 2 ^ 63 <= id < 2 ^ 63 ->
  0 <= uint64 id <= MaxUint64 /\
  (0 <= id -> uint64 id = id) /\
  (id < 0 -> uint64 id = id + 2 ^ 64).
Proof.
  intros H. unfold uint64, MaxUint64.
  pose proof (Z.mod_pos_bound id (2 ^ 64) ltac:(lia)).
  repeat split; try lia.
  - intros. apply Z.mod_small. lia.
  - intros. symmetry. apply (Z.mod_unique id (2 ^ 64) (-1)); lia.
Qed.

Lemma chars_allChars (enc : Z -> ascii) (p : ascii -> bool) (b : Z)
      (ds : list Z) :
  (forall d, 0 <= d < b -> p (enc d) = true) ->
  Forall (fun d => 0 <= d < b) ds ->
  allChars p (chars enc ds) = true.
Proof.
  intros Hp. induction 1 as [| d ds Hd _ IH]; cbn [chars fold_right allChars];
    [reflexivity |].
  fold (chars enc ds). rewrite (Hp d Hd), IH. reflexivity.
Qed.

Lemma encodeBase32Map_occurs (d : Z) :
  0 <= d < 32 -> occurs (charAt encodeBase32Map d) encodeBase32Map = true.
Proof.
  apply (below_forallb
           (fun d => occurs (charAt encodeBase32Map d) encodeBase32Map) 32).
  vm_compute. reflexivity.
Qed.

Lemma encodeBase58Map_occurs (d : Z) :
  0 <= d < 58 -> occurs (charAt encodeBase58Map d) encodeBase58Map = true.
Proof.
  apply (below_forallb
           (fun d => occurs (charAt encodeBase58Map d) encodeBase58Map) 58).
  vm_compute. reflexivity.
Qed.

Lemma encodeURL_occurs (d : Z) :
  0 <= d < 64 -> occurs (charAt encodeURL d) encodeURL = true.
Proof.
  apply (below_forallb (fun d => occurs (charAt encodeURL d) encodeURL) 64).
  vm_compute. reflexivity.
Qed.

(** The digits [Base32] and [Base58] write for any 64-bit identifier. *)
Lemma Base32_digits_int64 (id : Z) :
  - 2 ^ 63 <= id < 2 ^ 63 ->
  exists ds, Base32 id = Some (chars (charAt encodeBase32Map) ds) /\
             Forall (fun d => 0 <= d < 32) ds /\
             digitsValue 32 ds 0 = uint64 id /\ ds <> [] /\
             (List.length ds <= 13)%nat.
Proof.
  intros Hid. destruct (uint64_int64 id Hid) as (Hu & Hpos & Hneg).
  destruct (Z.eq_dec id 0) as [-> | Hnz].
  - exists [0]. cbn. repeat split; try lia; try discriminate.
    repeat constructor; lia.
  - assert (Hu0 : 0 < uint64 id) by (destruct (Z_lt_le_dec id 0); lia).
    unfold Base32. destruct (Z.eqb_spec id 0); [contradiction |].
    destruct (encodeLoop_spells 32 ltac:(lia) encodeBase32Map 13
                (uint64 id) EmptyString) as (ds & He & Hsp & Hne & Hlen).
    { unfold MaxUint64 in Hu. lia. }
    exists ds. rewrite He, append_nil_r.
    repeat split; auto.
    + apply Hsp.
    + apply (spells_value 32). exact Hsp.
Qed.

Lemma Base58_digits_int64 (id : Z) :
  - 2 ^ 63 <= id < 2 ^ 63 ->
  exists ds, Base58 id = Some (chars (charAt encodeBase58Map) ds) /\
             Forall (fun d => 0 <= d < 58) ds /\
             digitsValue 58 ds 0 = uint64 id /\ ds <> [] /\
             (List.length ds <= 11)%nat.
Proof.
  intros Hid. destruct (uint64_int64 id Hid) as (Hu & Hpos & Hneg).
  destruct (Z.eq_dec id 0) as [-> | Hnz].
  - exists [0]. cbn. repeat split; try lia; try discriminate.
    repeat constructor; lia.
  - assert (Hu0 : 0 < uint64 id) by (destruct (Z_lt_le_dec id 0); lia).
    unfold Base58. destruct (Z.eqb_spec id 0); [contradiction |].
    destruct (encodeLoop_spells 58 ltac:(lia) encodeBase58Map 11
                (uint64 id) EmptyString) as (ds & He & Hsp & Hne & Hlen).
    { unfold MaxUint64 in Hu. lia. }
    exists ds. rewrite He, append_nil_r.
    repeat split; auto.
    + apply Hsp.
    + apply (spells_value 58). exact Hsp.
Qed.

(** [Base32] and [Base58] never write past their buffers: for every 64-bit
    identifier, negative ones included, they return a string of 1 to 13
    (base 32) or 1 to 11 (base 58) characters of their alphabet. *)
Theorem Base32_Base58_total (id : ID) :
  - 2 ^ 63 <= id < 2 ^ 63 ->
  (exists s, Base32 id = Some s /\
             (1 <= String.length s <= 13)%nat /\
             allChars (fun c => occurs c encodeBase32Map) s = true) /\
  (exists s, Base58 id = Some s /\
             (1 <= String.length s <= 11)%nat /\
             allChars (fun c => occurs c encodeBase58Map) s = true).
Proof.
  intros Hid. split.
  - destruct (Base32_digits_int64 id Hid) as (ds & He & Hds & _ & Hne & Hlen).
    eexists. split; [exact He |]. rewrite chars_length. split.
    + destruct ds; [contradiction | cbn [List.length] in *; lia].
    + apply (chars_allChars _ _ 32); [apply encodeBase32Map_occurs | exact Hds].
  - destruct (Base58_digits_int64 id Hid) as (ds & He & Hds & _ & Hne & Hlen).
    eexists. split; [exact He |]. rewrite chars_length. split.
    + destruct ds; [contradiction | cbn [List.length] in *; lia].
    + apply (chars_allChars _ _ 58); [apply encodeBase58Map_occurs | exact Hds].
Qed.

Lemma Base32_Base58_total_witness :
  (exists s, Base32 (-1) = Some s /\
             (1 <= String.length s <= 13)%nat /\
             allChars (fun c => occurs c encodeBase32Map) s = true) /\
  (exists s, Base58 (-1) = Some s /\
             (1 <= String.length s <= 11)%nat /\
             allChars (fun c => occurs c encodeBase58Map) s = true).
Proof. apply (Base32_Base58_total (-1)). lia. Defined.


(** *** Negative identifiers *)

Lemma ParseInt_minus_chars (b : Z) (ds : list Z) (u : Z) :
  2 <= b <= 36 -> ds <> [] ->
  Forall (fun d => 0 <= d < b) ds ->
  digitsValue b ds 0 = u -> u <= 2 ^ 63 ->
  ParseInt (String "-" (chars (charAt digits) ds)) b = inr (- u).
Proof.
  intros Hb Hne Hall Hval Hmax.
  pose proof (digitsValue_ge b ds 0 ltac:(lia) ltac:(lia) Hall) as Hge.
  destruct ds as [| d ds]; [congruence |].
  unfold ParseInt.
  change (Ascii.eqb "-" "-") with true.
  change (Ascii.eqb "-" "+") with false.
  cbn [orb negb andb]. cbv iota. unfold ParseUint.
  cbn [chars fold_right]. fold (chars (charAt digits) ds).
  change (String (charAt digits d) (chars (charAt digits) ds))
    with (chars (charAt digits) (d :: ds)).
  rewrite <- (append_nil_r (chars (charAt digits) (d :: ds))).
  rewrite parseUintLoop_chars; auto; try lia; [| unfold MaxUint64; lia].
  cbn [parseUintLoop]. rewrite Hval in *.
  destruct (Z.gtb_spec u (2 ^ 63)); [lia |].
  f_equal. destruct (Z.eq_dec u (2 ^ 63)) as [-> | Hlt]; [reflexivity |].
  rewrite (wrap64_small u) by lia. apply wrap64_small. lia.
Qed.

Lemma String_negative_digits (v : Z) :
  - 2 ^ 63 <= v < 0 ->
  exists ds, String_ v = String "-" (chars (charAt digits) ds) /\
             Forall (fun d => 0 <= d < 10) ds /\
             digitsValue 10 ds 0 = - v /\ ds <> [].
Proof.
  intros Hv. unfold String_, FormatInt.
  destruct (Z.ltb_spec v 0) as [_ | ?]; [| lia].
  rewrite uint64_small by (unfold MaxUint64; lia).
  destruct (formatBitsLoop_spells 10 ltac:(lia) 64 (- v) EmptyString)
    as (ds & Heq & Hsp & Hne & _); [simpl; lia |].
  exists ds. rewrite Heq, append_nil_r.
  repeat split; auto; [apply Hsp | apply (spells_value 10); exact Hsp].
Qed.

Lemma Base2_negative_digits (v : Z) :
  - 2 ^ 63 <= v < 0 ->
  exists ds, Base2 v = String "-" (chars (charAt digits) ds) /\
             Forall (fun d => 0 <= d < 2) ds /\
             digitsValue 2 ds 0 = - v /\ ds <> [].
Proof.
  intros Hv. unfold Base2, SprintfZeroPaddedBinary.
  destruct (Z.ltb_spec v 0) as [_ | ?]; [| lia].
  rewrite uint64_small by (unfold MaxUint64; lia).
  destruct (formatBitsLoop_spells 2 ltac:(lia) 64 (- v) EmptyString)
    as (ds & Heq & Hsp & Hne & _); [simpl; lia |].
  rewrite Heq, append_nil_r, padZeros_chars.
  eexists. split; [reflexivity |].
  split; [apply Forall_zeros_app; [lia | apply Hsp] |].
  split; [rewrite digitsValue_zeros; apply (spells_value 2); exact Hsp |].
  apply zeros_app_nonempty. exact Hne.
Qed.

Lemma ParseString_String_int64 (v : Z) :
  - 2 ^ 63 <= v < 2 ^ 63 -> ParseString (String_ v) = inr v.
Proof.
  intros Hv. destruct (Z_lt_le_dec v 0) as [Hneg | Hpos].
  - destruct (String_negative_digits v ltac:(lia))
      as (ds & -> & Hall & Hval & Hne).
    unfold ParseString.
    rewrite (ParseInt_minus_chars 10 ds (- v)); auto; try lia.
    f_equal. lia.
  - apply ParseString_String. unfold MaxInt64. lia.
Qed.

Lemma ParseBase2_Base2_int64 (v : Z) :
  - 2 ^ 63 <= v < 2 ^ 63 -> ParseBase2 (Base2 v) = inr v.
Proof.
  intros Hv. destruct (Z_lt_le_dec v 0) as [Hneg | Hpos].
  - destruct (Base2_negative_digits v ltac:(lia))
      as (ds & -> & Hall & Hval & Hne).
    unfold ParseBase2.
    rewrite (ParseInt_minus_chars 2 ds (- v)); auto; try lia.
    f_equal. lia.
  - apply ParseBase2_Base2. unfold MaxInt64. lia.
Qed.

(** The decimal and the binary codec take every 64-bit identifier there and
    back, the negative ones and both ends of the range included. *)
Theorem signed_decode_encode (v : ID) :
  - 2 ^ 63 <= v < 2 ^ 63 ->
  ParseString (String_ v) = inr v /\ ParseBase2 (Base2 v) = inr v.
Proof.
  intros Hv. split;
    [apply ParseString_String_int64 | apply ParseBase2_Base2_int64]; exact Hv.
Qed.

Lemma signed_decode_encode_witness :
  ParseString (String_ (- 9223372036854775808))
  = inr (- 9223372036854775808) /\
  ParseBase2 (Base2 (- 9223372036854775808)) = inr (- 9223372036854775808).
Proof. apply (signed_decode_encode (- 9223372036854775808)). lia. Defined.

(** The base-32, base-58 and base-64 encoders write a negative identifier
    as the unsigned number of its 64 bits, and the matching decoder refuses
    what they write: base 32 and base 58 with their sentinel error, base 64
    with the overflow error. *)
Theorem negative_not_decoded (id : ID) :
  - 2 ^ 63 <= id < 0 ->
  (exists s, Base32 id = Some s /\ ParseBase32 s = inl ErrInvalidBase32) /\
  (exists s, Base58 id = Some s /\ ParseBase58 s = inl ErrInvalidBase58) /\
  ParseBase64 (Base64 id) = inl ErrBase64Overflow.
Proof.
  intros Hid.
  destruct (uint64_int64 id ltac:(lia)) as (Hu & _ & Hneg).
  specialize (Hneg ltac:(lia)).
  assert (Hbig : (uint64 id >? MaxInt64) = true)
    by (apply Z.gtb_lt; unfold MaxInt64; lia).
  repeat split.
  - destruct (Base32_digits_int64 id ltac:(lia))
      as (ds & He & Hds & Hval & Hne & Hlen).
    eexists. split; [exact He |].
    rewrite (ParseBase32_chars ds (uint64 id)); auto; [| lia].
    rewrite Hbig. reflexivity.
  - destruct (Base58_digits_int64 id ltac:(lia))
      as (ds & He & Hds & Hval & Hne & Hlen).
    eexists. split; [exact He |].
    rewrite (ParseBase58_chars ds (uint64 id)); auto; [| lia].
    rewrite Hbig. reflexivity.
  - unfold Base64. rewrite ParseBase64_Base64_unsigned by exact Hu.
    rewrite Hbig. reflexivity.
Qed.

Lemma negative_not_decoded_witness :
  (exists s, Base32 (-1) = Some s /\ ParseBase32 s = inl ErrInvalidBase32) /\
  (exists s, Base58 (-1) = Some s /\ ParseBase58 s = inl ErrInvalidBase58) /\
  ParseBase64 (Base64 (-1)) = inl ErrBase64Overflow.
Proof. apply (negative_not_decoded (-1)). lia. Defined.


(** *** Widths *)

Lemma formatBitsLoop_width (b : Z) :
  2 <= b ->
  forall (k fuel : nat) (u : Z) (acc : string),
    (k <= fuel)%nat -> 0 <= u < b ^ Z.of_nat (S k) ->
    (String.length (formatBitsLoop fuel b u acc)
     <= S k + String.length acc)%nat.
Proof.
  intros Hb. induction k as [| k IH]; intros fuel u acc Hk Hu.
  - change (b ^ Z.of_nat 1) with (b ^ 1) in Hu. rewrite Z.pow_1_r in Hu.
    destruct fuel; cbn [formatBitsLoop]; [cbn [String.length]; lia |].
    destruct (Z.geb_spec u b); [lia |]. cbn [String.length]. lia.
  - destruct fuel as [| fuel]; [lia |]. cbn [formatBitsLoop].
    destruct (Z.geb_spec u b); [| cbn [String.length]; lia].
    pose proof (div_lt_pow b Hb u (S k) Hu) as Hdiv.
    specialize (IH fuel (u / b) (String (charAt digits (u mod b)) acc)
                   ltac:(lia) Hdiv).
    cbn [String.length] in IH. lia.
Qed.

Lemma padZeros_length (k : nat) (s : string) :
  String.length (padZeros k s) = (k + String.length s)%nat.
Proof.
  revert s. induction k as [| k IH]; intros s; cbn [padZeros];
    [reflexivity |].
  rewrite IH. cbn [String.length]. lia.
Qed.

Lemma digits_binary (d : Z) :
  0 <= d < 2 ->
  (Ascii.eqb (charAt digits d) "0" || Ascii.eqb (charAt digits d) "1") = true.
Proof.
  apply (below_forallb
           (fun d => Ascii.eqb (charAt digits d) "0"
                     || Ascii.eqb (charAt digits d) "1") 2).
  vm_compute. reflexivity.
Qed.

Lemma land_63_range (x : Z) : 0 <= Z.land x 63 < 64.
Proof.
  change 63 with (Z.ones 6). rewrite Z.land_ones by lia.
  apply Z.mod_pos_bound. lia.
Qed.

Lemma sextet_occurs (val shift : Z) :
  occurs (sextet val shift) encodeURL = true.
Proof. unfold sextet. apply encodeURL_occurs. apply land_63_range. Qed.

(** [Base2] writes a non-negative identifier as exactly 63 binary
    digits. *)
Theorem Base2_width (id : ID) :
  0 <= id <= MaxInt64 ->
  String.length (Base2 id) = 63%nat /\
  allChars (fun c => Ascii.eqb c "0" || Ascii.eqb c "1") (Base2 id) = true.
Proof.
  intros Hid; split.
  - unfold Base2, SprintfZeroPaddedBinary.
    destruct (Z.ltb_spec id 0) as [? | _]; [lia |].
    rewrite uint64_small by (unfold MaxInt64, MaxUint64 in *; lia).
    pose proof (formatBitsLoop_width 2 ltac:(lia) 62 64 id EmptyString
                  ltac:(lia)) as Hw.
    cbn [String.length] in Hw.
    rewrite padZeros_length.
    assert (Hlt : 0 <= id < 2 ^ Z.of_nat 63)
      by (unfold MaxInt64 in Hid; change (Z.of_nat 63) with 63; lia).
    specialize (Hw Hlt). lia.
  - destruct (Base2_digits id Hid) as (ds & -> & Hds & _).
    apply (chars_allChars _ _ 2); [apply digits_binary | exact Hds].
Qed.

Lemma Base2_width_witness :
  String.length (Base2 5) = 63%nat /\
  allChars (fun c => Ascii.eqb c "0" || Ascii.eqb c "1") (Base2 5) = true.
Proof. apply (Base2_width 5). unfold MaxInt64. lia. Defined.

(** [Base64] writes every identifier, whatever its sign, as exactly 11
    characters of the URL alphabet, without padding. *)
Theorem Base64_width (id : ID) :
  String.length (Base64 id) = 11%nat /\
  allChars (fun c => occurs c encodeURL) (Base64 id) = true.
Proof.
  split; [reflexivity |].
  unfold Base64, PutUint64. cbn [EncodeToString allChars].
  rewrite !sextet_occurs. reflexivity.
Qed.

(** *** JSON *)

Lemma get_append_last (s : string) (c : ascii) :
  String.get (String.length s) (s ++ String c EmptyString) = Some c.
Proof. induction s as [| a s IH]; cbn; [reflexivity | exact IH]. Qed.

Lemma substring_append (s t : string) :
  String.substring 0 (String.length s) (s ++ t) = s.
Proof.
  induction s as [| a s IH]; cbn [String.length append substring].
  - destruct t; reflexivity.
  - rewrite IH. reflexivity.
Qed.

Lemma quoted_shape (body : string) :
  let s := String "034" (body ++ String "034" EmptyString) in
  ((2 <=? String.length s)%nat
   && Ascii.eqb (charAt s 0) "034"
   && Ascii.eqb (charAt s (Z.of_nat (String.length s) - 1)) "034") = true /\
  unquote s = body.
Proof.
  cbv zeta. split.
  - cbn [String.length]. rewrite append_length. cbn [String.length].
    replace (Z.of_nat (S (String.length body + 1)) - 1)
      with (Z.of_nat (S (String.length body))) by lia.
    unfold charAt. rewrite Nat2Z.id. cbn [Z.to_nat String.get].
    rewrite get_append_last.
    replace (2 <=? S (String.length body + 1))%nat with true
      by (symmetry; apply Nat.leb_le; lia).
    reflexivity.
  - unfold unquote. cbn [String.length]. rewrite append_length.
    cbn [String.length].
    replace (S (String.length body + 1) - 2)%nat with (String.length body)
      by lia.
    cbn [substring]. apply substring_append.
Qed.

Lemma digits_not_quote (d : Z) :
  0 <= d < 36 -> Ascii.eqb (charAt digits d) "034" = false.
Proof.
  intros Hd. apply negb_true_iff. revert d Hd.
  apply (below_forallb
           (fun d => negb (Ascii.eqb (charAt digits d) "034")) 36).
  vm_compute. reflexivity.
Qed.

Lemma String_not_quoted (v : Z) :
  - 2 ^ 63 <= v < 2 ^ 63 ->
  Ascii.eqb (charAt (String_ v) 0) "034" = false.
Proof.
  intros Hv. destruct (Z_lt_le_dec v 0) as [Hneg | Hpos].
  - destruct (String_negative_digits v ltac:(lia)) as (ds & -> & _).
    reflexivity.
  - destruct (String_digits v ltac:(unfold MaxInt64; lia))
      as (ds & -> & Hsp & Hne).
    destruct ds as [| d ds]; [congruence |].
    destruct Hsp as [Hall _]. inversion Hall as [| ? ? Hd _]; subst.
    cbn [chars fold_right]. unfold charAt at 1. cbn [Z.to_nat String.get].
    apply digits_not_quote. lia.
Qed.

Lemma ParseInt_range (s : string) (b v : Z) :
  ParseInt s b = inr v -> - 2 ^ 63 <= v < 2 ^ 63.
Proof.
  unfold ParseInt. destruct s as [| c0 rest]; [discriminate |].
  cbv zeta.
  destruct (ParseUint _ b) as [e | un]; [discriminate |].
  destruct (negb _ && _); [discriminate |].
  destruct (_ && (un >? 2 ^ 63)); [discriminate |].
  intros [= <-]. destruct (Ascii.eqb c0 "-"); apply wrap64_range.
Qed.

(** [UnmarshalJSON] reads back what [MarshalJSON] writes for a non-negative
    identifier, and the same digits without the quotes; what [MarshalJSON]
    writes for a negative identifier it refuses, quoted or not. *)
Theorem UnmarshalJSON_MarshalJSON (id : ID) :
  - 2 ^ 63 <= id < 2 ^ 63 ->
  UnmarshalJSON (MarshalJSON id)
  = (if id <? 0 then inl ErrNegativeJSON else inr id) /\
  UnmarshalJSON (String_ id)
  = (if id <? 0 then inl ErrNegativeJSON else inr id).
Proof.
  intros Hid.
  pose proof (ParseString_String_int64 id Hid) as Hrt.
  unfold ParseString, String_ in Hrt. split.
  - unfold UnmarshalJSON, MarshalJSON.
    destruct (quoted_shape (FormatInt id 10)) as [-> ->].
    rewrite Hrt. reflexivity.
  - unfold UnmarshalJSON.
    rewrite (String_not_quoted id Hid), andb_false_r. cbn [andb].
    unfold String_. rewrite Hrt. reflexivity.
Qed.

Lemma UnmarshalJSON_MarshalJSON_witness :
  UnmarshalJSON (MarshalJSON 42) = inr 42 /\
  UnmarshalJSON (String_ 42) = inr 42.
Proof. apply (UnmarshalJSON_MarshalJSON 42). lia. Defined.

(** [UnmarshalJSON] never stores a negative identifier: what it returns is
    within 0..2^63-1, and is what [ParseString] returns for the text, or for
    the text between the quotes when the first and the last byte are
    quotes. *)
Theorem UnmarshalJSON_success (s : string) (v : ID) :
  UnmarshalJSON s = inr v ->
  0 <= v <= MaxInt64 /\
  (ParseString s = inr v \/
   ((2 <= String.length s)%nat /\ ParseString (unquote s) = inr v)).
Proof.
  unfold UnmarshalJSON, ParseString. cbv zeta.
  destruct (Nat.leb_spec 2 (String.length s)) as [Hlen | Hlen];
    cbn [andb].
  - destruct (_ && _);
      (destruct (ParseInt _ 10) as [e | val] eqn:Hp; [discriminate |]);
      (destruct (Z.ltb_spec val 0); [discriminate |]);
      intros [= <-]; apply ParseInt_range in Hp as Hr;
      unfold MaxInt64; (split; [lia | auto]).
  - destruct (ParseInt _ 10) as [e | val] eqn:Hp; [discriminate |].
    destruct (Z.ltb_spec val 0); [discriminate |].
    intros [= <-]. apply ParseInt_range in Hp as Hr.
    unfold MaxInt64. split; [lia | auto].
Qed.

Lemma UnmarshalJSON_success_witness :
  0 <= 7 <= MaxInt64 /\
  (ParseString "+7" = inr 7 \/
   ((2 <= String.length "+7")%nat /\ ParseString (unquote "+7") = inr 7)).
Proof. apply (UnmarshalJSON_success "+7" 7). reflexivity. Defined.

(** *** Distinct identifiers, distinct encodings *)

Lemma uint64_inj (v w : Z) :
  - 2 ^ 63 <= v < 2 ^ 63 -> - 2 ^ 63 <= w < 2 ^ 63 ->
  uint64 v = uint64 w -> v = w.
Proof.
  intros Hv Hw.
  destruct (uint64_int64 v Hv) as (_ & Hvp & Hvn).
  destruct (uint64_int64 w Hw) as (_ & Hwp & Hwn).
  destruct (Z_lt_le_dec v 0), (Z_lt_le_dec w 0); lia.
Qed.

Lemma inr_inj (E A : Type) (x y : A) : @inr E A x = inr y -> x = y.
Proof. intros [= H]. exact H. Qed.

(** None of the five encoders writes the same text for two different
    64-bit identifiers. *)
Theorem encoders_injective (v w : ID) :
  - 2 ^ 63 <= v < 2 ^ 63 -> - 2 ^ 63 <= w < 2 ^ 63 ->
  (String_ v = String_ w -> v = w) /\
  (Base2 v = Base2 w -> v = w) /\
  (Base32 v = Base32 w -> v = w) /\
  (Base58 v = Base58 w -> v = w) /\
  (Base64 v = Base64 w -> v = w).
Proof.
  intros Hv Hw. repeat split; intros Heq.
  - pose proof (ParseString_String_int64 v Hv) as H1.
    pose proof (ParseString_String_int64 w Hw) as H2.
    rewrite Heq, H2 in H1. symmetry. exact (inr_inj _ _ _ _ H1).
  - pose proof (ParseBase2_Base2_int64 v Hv) as H1.
    pose proof (ParseBase2_Base2_int64 w Hw) as H2.
    rewrite Heq, H2 in H1. symmetry. exact (inr_inj _ _ _ _ H1).
  - destruct (Base32_digits_int64 v Hv) as (ds1 & He1 & Hds1 & Hv1 & _).
    destruct (Base32_digits_int64 w Hw) as (ds2 & He2 & Hds2 & Hv2 & _).
    destruct (uint64_int64 v Hv) as (Hu1 & _).
    destruct (uint64_int64 w Hw) as (Hu2 & _).
    rewrite He1, He2 in Heq. injection Heq as Heq.
    pose proof (decodeLoop_value 32 encodeBase32Map decodeBase32Map
                  ErrInvalidBase32 ltac:(lia) decodeBase32Map_inverts
                  ds1 (uint64 v) Hds1 Hv1 ltac:(lia)) as H1.
    pose proof (decodeLoop_value 32 encodeBase32Map decodeBase32Map
                  ErrInvalidBase32 ltac:(lia) decodeBase32Map_inverts
                  ds2 (uint64 w) Hds2 Hv2 ltac:(lia)) as H2.
    rewrite Heq, H2 in H1. apply uint64_inj; auto.
    symmetry. exact (inr_inj _ _ _ _ H1).
  - destruct (Base58_digits_int64 v Hv) as (ds1 & He1 & Hds1 & Hv1 & _).
    destruct (Base58_digits_int64 w Hw) as (ds2 & He2 & Hds2 & Hv2 & _).
    destruct (uint64_int64 v Hv) as (Hu1 & _).
    destruct (uint64_int64 w Hw) as (Hu2 & _).
    rewrite He1, He2 in Heq. injection Heq as Heq.
    pose proof (decodeLoop_value 58 encodeBase58Map decodeBase58Map
                  ErrInvalidBase58 ltac:(lia) decodeBase58Map_inverts
                  ds1 (uint64 v) Hds1 Hv1 ltac:(lia)) as H1.
    pose proof (decodeLoop_value 58 encodeBase58Map decodeBase58Map
                  ErrInvalidBase58 ltac:(lia) decodeBase58Map_inverts
                  ds2 (uint64 w) Hds2 Hv2 ltac:(lia)) as H2.
    rewrite Heq, H2 in H1. apply uint64_inj; auto.
    symmetry. exact (inr_inj _ _ _ _ H1).
  - destruct (uint64_int64 v Hv) as (Hu1 & _).
    destruct (uint64_int64 w Hw) as (Hu2 & _).
    unfold Base64 in Heq.
    assert (Hb : PutUint64 (uint64 v) = PutUint64 (uint64 w)).
    { destruct (PutUint64_bytes (uint64 v))
        as (a0 & a1 & a2 & a3 & a4 & a5 & a6 & a7 & Ea & Ha).
      destruct (PutUint64_bytes (uint64 w))
        as (c0 & c1 & c2 & c3 & c4 & c5 & c6 & c7 & Ec & Hc).
      rewrite Ea, Ec in *.
      pose proof (DecodeString_EncodeToString_8 a0 a1 a2 a3 a4 a5 a6 a7)
        as H1.
      pose proof (DecodeString_EncodeToString_8 c0 c1 c2 c3 c4 c5 c6 c7)
        as H2.
      rewrite Heq, H2 in H1 by apply Hc.
      symmetry. apply (inr_inj DecodeError). apply H1; apply Ha. }
    apply uint64_inj; auto.
    rewrite <- (Uint64_PutUint64 (uint64 v) Hu1),
            <- (Uint64_PutUint64 (uint64 w) Hu2), Hb.
    reflexivity.
Qed.

Lemma encoders_injective_witness :
  (String_ 5 = String_ (-5) -> 5 = -5) /\
  (Base2 5 = Base2 (-5) -> 5 = -5) /\
  (Base32 5 = Base32 (-5) -> 5 = -5) /\
  (Base58 5 = Base58 (-5) -> 5 = -5) /\
  (Base64 5 = Base64 (-5) -> 5 = -5).
Proof. apply (encoders_injective 5 (-5)); lia. Defined.

(** *** Base 64: what [ParseBase64] accepts *)

Lemma alphabet_not_newline (c : ascii) :
  (tableGet decodeURLMap c =? 255) = false -> isNewline c = false.
Proof.
  intros H.
  assert (Hc : (tableGet decodeURLMap c =? 255) || negb (isNewline c) = true)
    by (apply (ascii_forallb
                 (fun c => (tableGet decodeURLMap c =? 255)
                           || negb (isNewline c)));
        vm_compute; reflexivity).
  rewrite H in Hc. cbn [orb] in Hc. apply negb_true_iff. exact Hc.
Qed.

Lemma decodeQuanta_length (s : string) :
  forall dbuf dst out,
    (List.length dbuf <= 3)%nat ->
    decodeQuanta s dbuf dst = inr out ->
    Z.of_nat (List.length out)
    = Z.of_nat (List.length dst)
      + decodedLen (Z.of_nat (List.length dbuf) + Z.of_nat (significant s)).
Proof.
  induction s as [| c s IH]; intros dbuf dst out Hlen;
    cbn [decodeQuanta significant].
  - destruct dbuf as [| d0 [| d1 [| d2 [| d3 dbuf]]]];
      cbn [List.length] in *; try lia; try discriminate.
    + intros [= <-]. unfold decodedLen. divmod.
    + assert (Hq : List.length (quantumBytes [d0; d1]) = 1%nat)
        by reflexivity.
      revert Hq. generalize (quantumBytes [d0; d1]). intros q Hq [= <-].
      rewrite length_app, Hq. unfold decodedLen. divmod.
    + assert (Hq : List.length (quantumBytes [d0; d1; d2]) = 2%nat)
        by reflexivity.
      revert Hq. generalize (quantumBytes [d0; d1; d2]). intros q Hq [= <-].
      rewrite length_app, Hq. unfold decodedLen. divmod.
  - destruct (tableGet decodeURLMap c =? 255) eqn:E.
    + fold (isNewline c). destruct (isNewline c) eqn:En; [| discriminate].
      apply IH. exact Hlen.
    + rewrite (alphabet_not_newline c E).
      destruct dbuf as [| d0 [| d1 [| d2 [| d3 dbuf]]]];
        cbn [List.length] in *; try lia; intros H; apply IH in H;
        cbn [List.length app] in *; try lia.
      * unfold decodedLen in *. divmod.
      * unfold decodedLen in *. divmod.
      * unfold decodedLen in *. divmod.
      * assert (Hq : List.length
                       (quantumBytes [d0; d1; d2; tableGet decodeURLMap c])
                     = 3%nat) by reflexivity.
        revert Hq H.
        generalize (quantumBytes [d0; d1; d2; tableGet decodeURLMap c]).
        intros q Hq H. rewrite length_app, Hq in H.
        unfold decodedLen in *. divmod.
Qed.

(** A string that [ParseBase64] accepts has exactly eleven characters
    besides the carriage returns and line feeds it skips. *)
Theorem ParseBase64_eleven (s : string) (v : ID) :
  ParseBase64 s = inr v -> significant s = 11%nat.
Proof.
  unfold ParseBase64, DecodeString.
  destruct (decodeQuanta s [] []) as [e | b] eqn:Hd; [discriminate |].
  destruct (Nat.eqb_spec (List.length b) 8) as [Hb | Hb];
    cbn [negb]; [| discriminate].
  intros _. apply decodeQuanta_length in Hd; [| cbn; lia].
  rewrite Hb in Hd. cbn [List.length] in Hd. unfold decodedLen in Hd.
  apply Nat2Z.inj. divmod.
Qed.

Lemma ParseBase64_eleven_witness :
  significant (String "010" "AAAAAAAAAAE") = 11%nat.
Proof.
  apply (ParseBase64_eleven (String "010" "AAAAAAAAAAE") 1). reflexivity.
Defined.


(** *** The bits [DecodeString] does not look at *)

Lemma decodeQuanta_three_loose (val x : Z) (dst : list Z) :
  0 <= x < 64 ->
  decodeQuanta
    (String (sextet val 18) (String (sextet val 12)
       (String (charAt encodeURL x) EmptyString))) [] dst
  = inr (dst ++ quantumBytes [sextetValue val 18; sextetValue val 12; x]).
Proof.
  intros Hx. cbn [decodeQuanta].
  destruct (sextet_lookup val 18 ltac:(lia)) as [-> ->].
  destruct (sextet_lookup val 12 ltac:(lia)) as [-> ->].
  rewrite (decodeURLMap_inverts x Hx).
  destruct (Z.eqb_spec x 255); [lia |]. reflexivity.
Qed.

Lemma last_quantum (b0 b1 : Z) :
  isByte b0 -> isByte b1 ->
  Z.lor (Z.shiftl b0 16) (Z.shiftl b1 8) = b0 * 2 ^ 16 + b1 * 2 ^ 8.
Proof.
  unfold isByte. intros H0 H1. rewrite !Z.shiftl_mul_pow2 by lia.
  apply (lor_hi_lo (b0 * 2 ^ 16) (b1 * 2 ^ 8) 16); try lia; divmod.
Qed.

Lemma quantumBytes_three_loose (b0 b1 x : Z) :
  isByte b0 -> isByte b1 -> 0 <= x < 64 -> x / 4 = b1 mod 16 ->
  let val := Z.lor (Z.shiftl b0 16) (Z.shiftl b1 8) in
  quantumBytes [sextetValue val 18; sextetValue val 12; x] = [b0; b1].
Proof.
  intros H0 H1 Hx Hx4 val. subst val. rewrite last_quantum by assumption.
  unfold isByte in *.
  unfold quantumBytes, sextetValue.
  rewrite !Z.shiftl_mul_pow2, !Z.shiftr_div_pow2 by lia.
  set (val := b0 * 2 ^ 16 + b1 * 2 ^ 8).
  assert (Hv : 0 <= val < 2 ^ 24) by (subst val; lia).
  rewrite (lor_hi_lo ((val / 2 ^ 18) mod 64 * 2 ^ 18)
                     ((val / 2 ^ 12) mod 64 * 2 ^ 12) 18)
    by (try lia; divmod).
  rewrite (lor_hi_lo _ (x * 2 ^ 6) 12) by (try lia; divmod).
  replace ((val / 2 ^ 18) mod 64 * 2 ^ 18 + (val / 2 ^ 12) mod 64 * 2 ^ 12)
    with (b0 * 2 ^ 16 + (b1 / 16) * 2 ^ 12) by (subst val; divmod).
  repeat f_equal; divmod.
Qed.

Lemma last_sextet (b0 b1 : Z) :
  isByte b0 -> isByte b1 ->
  sextet (Z.lor (Z.shiftl b0 16) (Z.shiftl b1 8)) 6
  = charAt encodeURL (4 * (b1 mod 16)).
Proof.
  intros H0 H1. rewrite last_quantum by assumption. unfold isByte in *.
  unfold sextet. f_equal.
  change 63 with (Z.ones 6). rewrite Z.land_ones, Z.shiftr_div_pow2 by lia.
  divmod.
Qed.

Lemma charAt_encodeURL_inj (x y : Z) :
  0 <= x < 64 -> 0 <= y < 64 ->
  charAt encodeURL x = charAt encodeURL y -> x = y.
Proof.
  intros Hx Hy H.
  rewrite <- (decodeURLMap_inverts x Hx), <- (decodeURLMap_inverts y Hy), H.
  reflexivity.
Qed.

(** [ParseBase64] ignores the two lowest bits of the eleventh character:
    the text of a non-negative identifier with its last character replaced
    by any of the three that differ from it in those bits only is read back
    as the same identifier, although [Base64] does not write it. *)
Theorem ParseBase64_ignores_low_bits (id : ID) (k : Z) :
  0 <= id <= MaxInt64 -> 0 <= k <= 3 ->
  ParseBase64 (looseBase64 id k) = inr id /\
  (looseBase64 id k = Base64 id <-> k = 0).
Proof.
  intros Hid Hk.
  assert (Hu : 0 <= id <= MaxUint64)
    by (unfold MaxInt64, MaxUint64 in *; lia).
  pose proof (Uint64_PutUint64 id Hu) as Hput.
  unfold looseBase64, Base64. rewrite (uint64_small id Hu).
  destruct (PutUint64_bytes id)
    as (b0 & b1 & b2 & b3 & b4 & b5 & b6 & b7 & Heq & H0 & H1 & H2 & H3 &
        H4 & H5 & H6 & H7).
  assert (Hb7 : b7 = id mod 256)
    by (unfold PutUint64 in Heq; injection Heq; auto).
  rewrite Heq in *. clear Heq.
  assert (Hx : 0 <= 4 * (id mod 16) + k < 64) by divmod.
  cbn [EncodeToString String.substring append].
  split.
  - unfold ParseBase64, DecodeString.
    rewrite decodeQuanta_four, quantumBytes_four by assumption.
    rewrite decodeQuanta_four, quantumBytes_four by assumption.
    rewrite decodeQuanta_three_loose by exact Hx.
    rewrite quantumBytes_three_loose; try assumption;
      [| unfold isByte in *; subst b7; divmod].
    cbn [app List.length Nat.eqb negb]. rewrite Hput.
    destruct (Z.gtb_spec id MaxInt64); [lia |].
    unfold MaxInt64 in *. rewrite wrap64_small by lia. reflexivity.
  - rewrite (last_sextet b6 b7) by assumption.
    replace (b7 mod 16) with (id mod 16) by (subst b7; divmod).
    split.
    + remember (4 * (id mod 16)) as x eqn:Ex.
      intros [= H]. apply charAt_encodeURL_inj in H; [lia | lia |].
      subst x. divmod.
    + intros ->. rewrite Z.add_0_r. reflexivity.
Qed.

Lemma ParseBase64_ignores_low_bits_witness :
  ParseBase64 (looseBase64 1 3) = inr 1 /\
  (looseBase64 1 3 = Base64 1 <-> 3 = 0).
Proof.
  apply (ParseBase64_ignores_low_bits 1 3); unfold MaxInt64; lia.
Defined.

(** *** Zeros in front of decimal and binary digits *)

(** [ParseString] and [ParseBase2] read a non-negative identifier back
    from its digits with any number of zeros in front, text that [String]
    and [Base2] do not write. *)
Theorem leading_zeros_decimal_binary (v : ID) (k : nat) :
  0 <= v <= MaxInt64 -> (1 <= k)%nat ->
  ParseString (prepend "0" k (String_ v)) = inr v /\
  prepend "0" k (String_ v) <> String_ v /\
  ParseBase2 (prepend "0" k (Base2 v)) = inr v /\
  prepend "0" k (Base2 v) <> Base2 v.
Proof.
  intros Hv Hk.
  destruct (String_digits v Hv) as (ds & -> & Hsp & Hne).
  destruct (Base2_digits v Hv) as (bs & -> & Hbs & Hbv & Hbne).
  change "0"%char with (charAt digits 0). rewrite !prepend_chars.
  repeat split.
  - apply ParseInt_chars; try lia.
    + apply zeros_app_nonempty. exact Hne.
    + apply Forall_zeros_app; [lia | apply Hsp].
    + rewrite digitsValue_zeros. apply (spells_value 10). exact Hsp.
  - rewrite <- prepend_chars. apply prepend_neq. exact Hk.
  - apply ParseInt_chars; try lia.
    + apply zeros_app_nonempty. exact Hbne.
    + apply Forall_zeros_app; [lia | exact Hbs].
    + rewrite digitsValue_zeros. exact Hbv.
  - rewrite <- prepend_chars. apply prepend_neq. exact Hk.
Qed.

Lemma leading_zeros_decimal_binary_witness :
  ParseString (prepend "0" 2 (String_ 7)) = inr 7 /\
  prepend "0" 2 (String_ 7) <> String_ 7 /\
  ParseBase2 (prepend "0" 2 (Base2 7)) = inr 7 /\
  prepend "0" 2 (Base2 7) <> Base2 7.
Proof.
  apply (leading_zeros_decimal_binary 7 2); [unfold MaxInt64; lia | lia].
Defined.

End CodecMore.

(** ** From the generator to the codecs *)

Module EndToEnd.
Import Generator GeneratorSpec GeneratorSpecMore GeneratorMore.
Import Codec CodecSpec CodecFacts CodecMore.

(** An identifier that a call returns, on a node with an id within 0..3
    and a recorded time that is not before the epoch, is read back unchanged
    from each of its five encodings and from its JSON form. *)
Theorem generated_id_decodes (c : Call) (n n' : Node) (id : ID) :
  call c n = (n', Ok id) ->
  0 <= categoryOf c -> 0 <= node n <= 3 -> 0 <= time n' ->
  ParseString (String_ id) = inr id /\
  ParseBase2 (Base2 id) = inr id /\
  (exists s, Base32 id = Some s /\ ParseBase32 s = inr id) /\
  (exists s, Base58 id = Some s /\ ParseBase58 s = inr id) /\
  ParseBase64 (Base64 id) = inr id /\
  UnmarshalJSON (MarshalJSON id) = inr id.
Proof.
  intros H Hc Hn Ht. apply call_success in H.
  destruct H as (Hid & Hc' & Ht' & Hs & Hnode & _).
  assert (Hv : validFields (categoryOf c) (time n') (node n') (seq n'))
    by (unfold validFields; rewrite Hnode; change NodeMax with 3; lia).
  pose proof (packID_range _ _ _ _ Hv) as Hr. rewrite <- Hid in Hr.
  pose proof (ParseString_String id Hr) as Hdec.
  split; [exact Hdec |].
  split; [apply ParseBase2_Base2; exact Hr |].
  split; [apply ParseBase32_Base32; exact Hr |].
  split; [apply ParseBase58_Base58; exact Hr |].
  split; [apply ParseBase64_Base64; exact Hr |].
  unfold UnmarshalJSON, MarshalJSON.
  destruct (quoted_shape (FormatInt id 10)) as [-> ->].
  unfold ParseString, String_ in Hdec. rewrite Hdec.
  destruct (Z.ltb_spec id 0); [lia | reflexivity].
Qed.

Lemma generated_id_decodes_witness :
  ParseString (String_ 9007199254764544) = inr 9007199254764544 /\
  ParseBase2 (Base2 9007199254764544) = inr 9007199254764544 /\
  (exists s, Base32 9007199254764544 = Some s /\
             ParseBase32 s = inr 9007199254764544) /\
  (exists s, Base58 9007199254764544 = Some s /\
             ParseBase58 s = inr 9007199254764544) /\
  ParseBase64 (Base64 9007199254764544) = inr 9007199254764544 /\
  UnmarshalJSON (MarshalJSON 9007199254764544) = inr 9007199254764544.
Proof.
  apply (generated_id_decodes
           (CallGenerate (fun _ => 5) 1)
           (mkNode 0 3 0 0 0 true false)
           (mkNode 9007199254764544 3 5 0 0 true false)
           9007199254764544).
  - vm_compute. reflexivity.
  - cbn. lia.
  - cbn. lia.
  - cbn. lia.
Defined.

End EndToEnd.
